(** * EAST training drivers: checkpoint / early-stopping state machine

    A shallow embedding of the two training drivers

      - [develop/T4148_train_adamW.py]   (module [AdamW],  "Variant A")
      - [develop/T4148_train_loader.py]  (module [Loader], "Variant B")

    Both scripts parse a command line, build the data pipeline, run the
    epoch loop and write checkpoints.  The numerical work (model, losses,
    detection, metrics) lives in collaborators that are imported by the
    scripts; here their outcomes are an input of the run (a [script] of
    what each call returns or raises), the file system is a finite map
    from paths to nodes, and everything the drivers do to the outside
    world is recorded, in order, in a trace of events. *)

From Stdlib Require Import ZArith String Ascii List Lia Bool.
From Stdlib Require Import Floats.SpecFloat.
From stdpp Require Import base gmap strings pretty.

Import ListNotations.
Local Open Scope string_scope.
Local Open Scope list_scope.
Local Open Scope Z_scope.

(** ** Python strings *)

Module PyStr.

(** [str.lower] on the ASCII range: 'A'..'Z' are shifted to 'a'..'z',
    every other byte is kept. *)
Definition lower_ascii (c : ascii) : ascii :=
  let n := nat_of_ascii c in
  if ((65 <=? n)%nat && (n <=? 90)%nat)%bool then ascii_of_nat (n + 32) else c.

Fixpoint lower (s : string) : string :=
  match s with
  | EmptyString => EmptyString
  | String c s' => String (lower_ascii c) (lower s')
  end.

(** [s.replace(" ", "_")]: both patterns are one character long. *)
Fixpoint replace_space (s : string) : string :=
  match s with
  | EmptyString => EmptyString
  | String c s' =>
      String (if Ascii.eqb c " "%char then "_"%char else c) (replace_space s')
  end.

(** [x in (a, b, ...)] for a tuple of strings. *)
Definition mem (x : string) (l : list string) : bool :=
  existsb (String.eqb x) l.

Definition startswith_sep (s : string) : bool :=
  match s with
  | String c _ => Ascii.eqb c "/"%char
  | EmptyString => false
  end.

Fixpoint endswith_sep (s : string) : bool :=
  match s with
  | EmptyString => false
  | String c EmptyString => Ascii.eqb c "/"%char
  | String _ s' => endswith_sep s'
  end.

(** [posixpath.join(a, b)] for two components. *)
Definition join (a b : string) : string :=
  if startswith_sep b then b
  else if (String.eqb a "" || endswith_sep a)%bool then (a ++ b)%string
  else (a ++ "/" ++ b)%string.

(** [posixpath.dirname]: the head up to the last '/', with trailing
    slashes stripped unless the head is made of slashes only. *)
Fixpoint drop_tail (r : list ascii) : list ascii :=
  match r with
  | [] => []
  | c :: r' => if Ascii.eqb c "/"%char then r else drop_tail r'
  end.

Fixpoint strip_sep (r : list ascii) : list ascii :=
  match r with
  | [] => []
  | c :: r' => if Ascii.eqb c "/"%char then strip_sep r' else r
  end.

Definition dirname (p : string) : string :=
  let head := drop_tail (rev (list_ascii_of_string p)) in
  match strip_sep head with
  | [] => string_of_list_ascii (rev head)
  | stripped => string_of_list_ascii (rev stripped)
  end.

End PyStr.

(** ** Exceptions and results *)

Inductive errno := EEXIST | ENOENT | EISDIR | ENOTDIR | ELOOP.

Inductive exn :=
| OSError (e : errno)
| ValueError (msg : string)
| NameError (name : string)          (* also UnboundLocalError, its subclass *)
| AttributeError (attr : string)
| ZeroDivisionError
| SystemExit (code : Z)
| CollaboratorError (what : string). (* raised inside an imported module *)

Inductive result (A : Type) :=
| Ok (a : A)
| Raise (e : exn).
Arguments Ok {A} a.
Arguments Raise {A} e.

(** ** The outside world *)

Inductive node :=
| Dir
| File                        (* a regular file; its content is not modelled *)
| Symlink (target : string).

#[global] Instance node_eq_dec : EqDecision node.
Proof. solve_decision. Defined.

Inductive split := Train | Val.

(** Lines written to standard output by the drivers themselves. *)
Inductive message :=
| MsgValNotFound                         (* loader.py:83 *)
| MsgForceReset                          (* loader.py:84 *)
| MsgMeanLoss (stall : option Z)         (* adamW.py:116, loader.py:148/151 *)
| MsgNewBest (epoch1 : Z) (best : spec_float)  (* adamW.py:121, loader.py:181 *)
| MsgNoMoreBest.                         (* adamW.py:133, loader.py:203 *)

(** Calls into the imported collaborators. *)
Inductive call :=
| CallSeed (seed : Z)
| CallSceneTextDataset (data_dir : string) (s : split)
| CallEASTDataset
| CallDataLoader (s : split)
| CallBuildModel
| CallTrainEpoch (epoch : Z)
| CallValidate (epoch : Z)
| CallNow (epoch : Z).

(** Operations on the file system. *)
Inductive syscall :=
| SysSymlink (target link_name : string)
| SysRemove (path : string)
| SysMakedirs (path : string)
| TorchSave (path : string).

Inductive event :=
| Print (m : message)
| Call (c : call)
| Sys (s : syscall).

Record world := World {
  fs : gmap string node;
  trace : list event
}.

(** ** The monad of the drivers: state passing over [world], with
    exceptions.  An exception keeps the world reached so far. *)

Definition M (A : Type) : Type := world -> result A * world.

Definition pure {A} (a : A) : M A := fun w => (Ok a, w).

Definition raise {A} (e : exn) : M A := fun w => (Raise e, w).

Definition bind {A B} (m : M A) (k : A -> M B) : M B :=
  fun w =>
    match m w with
    | (Ok a, w') => k a w'
    | (Raise e, w') => (Raise e, w')
    end.

Definition try_except {A} (m : M A) (handler : exn -> M A) : M A :=
  fun w =>
    match m w with
    | (Ok a, w') => (Ok a, w')
    | (Raise e, w') => handler e w'
    end.

Definition emit (e : event) : M unit :=
  fun w => (Ok tt, World (fs w) (trace w ++ [e])).

Definition get_fs : M (gmap string node) := fun w => (Ok (fs w), w).

Definition put_fs (f : gmap string node) : M unit :=
  fun w => (Ok tt, World f (trace w)).

Definition lift {A} (r : result A) : M A := fun w => (r, w).

Notation "'let!' x ':=' m 'in' k" := (bind m (fun x => k))
  (at level 10, x pattern, m at level 100, k at level 200).
Notation "m ';;' k" := (bind m (fun _ => k))
  (at level 100, k at level 200, right associativity).

(** ** File-system primitives ([os], [os.path], [torch.save]) *)

Module Os.

(** A directory is known by its literal path; the empty path is the
    current directory, which always exists. *)
Definition isdir_at (f : gmap string node) (d : string) : bool :=
  if String.eqb d "" then true
  else match f !! d with Some Dir => true | _ => false end.

(** Follow symbolic links from [p], at most [n] of them; the result is
    the first path that is not a link (it need not exist). *)
Fixpoint follow (n : nat) (f : gmap string node) (p : string) : option string :=
  match f !! p with
  | Some (Symlink t) =>
      match n with
      | O => None
      | S n' => follow n' f (PyStr.join (PyStr.dirname p) t)
      end
  | _ => Some p
  end.

Definition max_links : nat := 40.

(** [os.stat]-like lookup: the node reached after following links. *)
Definition stat (f : gmap string node) (p : string) : option node :=
  match follow max_links f p with
  | Some q => f !! q
  | None => None
  end.

(** [os.path.exists] and [os.path.isfile] follow links. *)
Definition exists_ (p : string) : M bool :=
  let! f := get_fs in
  pure (match stat f p with Some _ => true | None => false end).

Definition isfile (p : string) : M bool :=
  let! f := get_fs in
  pure (match stat f p with Some File => true | _ => false end).

(** [os.symlink(target, link_name)] *)
Definition symlink (target link_name : string) : M unit :=
  emit (Sys (SysSymlink target link_name));;
  let! f := get_fs in
  if String.eqb link_name "" then raise (OSError ENOENT)
  else if negb (isdir_at f (PyStr.dirname link_name)) then raise (OSError ENOENT)
  else match f !! link_name with
       | Some _ => raise (OSError EEXIST)
       | None => put_fs (<[link_name := Symlink target]> f)
       end.

(** [os.remove(path)] *)
Definition remove (path : string) : M unit :=
  emit (Sys (SysRemove path));;
  let! f := get_fs in
  match f !! path with
  | None => raise (OSError ENOENT)
  | Some Dir => raise (OSError EISDIR)
  | Some _ => put_fs (delete path f)
  end.

(** [os.makedirs(path)]: the leaf and every missing ancestor. *)
Fixpoint mkdirs (n : nat) (f : gmap string node) (p : string)
  : result (gmap string node) :=
  match f !! p with
  | Some _ => Raise (OSError EEXIST)
  | None =>
      let d := PyStr.dirname p in
      if isdir_at f d then Ok (<[p := Dir]> f)
      else match f !! d, n with
           | Some _, _ => Raise (OSError ENOTDIR)
           | None, O => Raise (OSError ENOENT)
           | None, S n' =>
               match mkdirs n' f d with
               | Ok f' => Ok (<[p := Dir]> f')
               | Raise e => Raise e
               end
           end
  end.

Definition makedirs (path : string) : M unit :=
  emit (Sys (SysMakedirs path));;
  let! f := get_fs in
  let! f' := lift (mkdirs (String.length path) f path) in
  put_fs f'.

(** [torch.save(state, path)]: opens [path] for writing (through links)
    and writes the serialized weights, an opaque blob. *)
Definition torch_save (path : string) : M unit :=
  emit (Sys (TorchSave path));;
  let! f := get_fs in
  match follow max_links f path with
  | None => raise (OSError ELOOP)
  | Some q =>
      match f !! q with
      | Some Dir => raise (OSError EISDIR)
      | _ =>
          if String.eqb q "" then raise (OSError ENOENT)
          else if isdir_at f (PyStr.dirname q) then put_fs (<[q := File]> f)
          else raise (OSError ENOENT)
      end
  end.

End Os.

(** ** [symlink_force] (identical in both scripts: adamW.py:26-34,
    loader.py:31-39) *)

Definition symlink_force (target link_name : string) : M unit :=
  try_except (Os.symlink target link_name)
    (fun e =>
       match e with
       | OSError en =>
           match en with
           | EEXIST =>
               Os.remove link_name;;
               Os.symlink target link_name
           | _ => raise e
           end
       | _ => raise e
       end).

(** ** Floats

    [loss.item()] and the F1 score are Python floats (IEEE binary64);
    they are compared with [<] and [>], which are false on NaN. *)

Abbreviation float := spec_float.

Definition fadd : float -> float -> float := SFadd 53 1024.

(** Python [a < b] on floats. *)
Definition flt (a b : float) : bool := SFltb a b.

(** The float that equals the Python int [z] (exact for |z| < 2^53; an
    int compares with a float by value). *)
Definition float_of_int (z : Z) : float := binary_normalize 53 1024 z 0 false.

(** [a] is below or equal to [b]: what "non-decreasing" and
    "non-increasing" mean for a sequence of scores. *)
Definition fle (a b : float) : Prop := flt a b = true \/ a = b.

(** ** Python integer arithmetic that can raise *)

(** [a % b] on ints: the sign of the divisor, [ZeroDivisionError] on 0. *)
Definition py_mod (a b : Z) : result Z :=
  if b =? 0 then Raise ZeroDivisionError else Ok (a mod b).

(** [math.ceil(a / b)] on ints (exact below 2^53). *)
Definition ceil_div (a b : Z) : result Z :=
  if b =? 0 then Raise ZeroDivisionError else Ok (- ((- a) / b)).

(** ** The collaborators

    What the imported modules return, or raise, when the driver calls
    them.  A run of the driver is determined by its arguments, the
    initial file system and such a script. *)

Record script := Script {
  (* torch / numpy / random seeding: adamW.py:69-75, loader.py:92-98 *)
  seed_everything : Z -> result unit;
  (* SceneTextDataset(data_dir, split=..., image_size=..., crop_size=...):
     the length of the dataset that was built *)
  scene_text_dataset : string -> split -> Z -> Z -> result Z;
  (* EASTDataset(dataset): the length of the wrapped dataset *)
  east_dataset : Z -> result Z;
  (* DataLoader(...) *)
  data_loader : split -> result unit;
  (* EAST(), model.to(device), AdamW(...), MultiStepLR(...) *)
  build_model : result unit;
  (* one pass over train_loader and scheduler.step(): the value of
     loss.item() for each batch, in order *)
  train_epoch : Z -> result (list float);
  (* one pass over val_loader: ret['total']['hmean'] after each batch *)
  validate : Z -> result (list float);
  (* datetime.now().strftime("%y%m%d_%H%M%S") at the periodic save *)
  now : Z -> string
}.

Definition invoke {A} (c : call) (r : result A) : M A :=
  emit (Call c);; lift r.

(** ** [for epoch in range(n)] with [break] *)

Inductive ctl := Next | Break.

Section Loop.
Context {S : Type}.
Variable body : Z -> S -> M (S * ctl).

Fixpoint for_range (n : nat) (epoch : Z) (s : S) : M S :=
  match n with
  | O => pure s
  | Datatypes.S n' =>
      let! r := body epoch s in
      match snd r with
      | Break => pure (fst r)
      | Next => for_range n' (epoch + 1) (fst r)
      end
  end.

(** The locals and the world once the first [k] iterations have run,
    with what the last of them did; [None] when the run does not get
    that far (an exception, or a [break] before). *)
Fixpoint after_epochs (k : nat) (s0 : S) (w0 : world)
  : option (S * ctl * world) :=
  match k with
  | O => Some (s0, Next, w0)
  | Datatypes.S k' =>
      match after_epochs k' s0 w0 with
      | Some (s, Next, w) =>
          match body (Z.of_nat k') s w with
          | (Ok (s', c), w') => Some (s', c, w')
          | (Raise _, _) => None
          end
      | _ => None
      end
  end.
End Loop.

(** The periodic checkpoint (adamW.py:138-146, loader.py:192-199); the
    two scripts differ only in how the file is named from [epoch + 1]
    and the time stamp. *)
Definition periodic_save (X : script) (model_dir : string) (epoch : Z)
    (pth_name : string) : M unit :=
  (let! present := Os.exists_ model_dir in
   if negb present then Os.makedirs model_dir else pure tt);;
  invoke (CallNow epoch) (Ok tt);;
  let ckpt_fpath := PyStr.join model_dir pth_name in
  Os.torch_save ckpt_fpath;;
  symlink_force pth_name (PyStr.join model_dir "latest.pth").

(** * Command lines

    The command line is a sequence of [--flag value] pairs, every flag
    written in full.  A parser is the list of its [add_argument] calls;
    [parse_args] of the library converts every value with the [type]
    callable of its flag, in command-line order, and exits with status 2
    on a value the callable rejects with [ValueError] and on a flag it
    does not know.  An exception of another class raised by the callable
    is not caught by the library. *)

Inductive pyval :=
| VBool (b : bool)
| VStr (s : string)
| VInt (z : Z).

Record environment := Environment {
  environ : gmap string string;          (* os.environ *)
  cuda_is_available : bool;              (* torch.cuda.is_available() *)
  float_of_str : string -> option float  (* the builtin float(str) *)
}.

Module Argparse.

Definition is_space (c : ascii) : bool :=
  let n := nat_of_ascii c in
  ((n =? 32)%nat || ((9 <=? n)%nat && (n <=? 13)%nat))%bool.

Definition digit (c : ascii) : option Z :=
  let n := nat_of_ascii c in
  if ((48 <=? n)%nat && (n <=? 57)%nat)%bool then Some (Z.of_nat (n - 48)) else None.

Fixpoint lstrip (s : string) : string :=
  match s with
  | String c s' => if is_space c then lstrip s' else s
  | EmptyString => s
  end.

Fixpoint all_space (s : string) : bool :=
  match s with
  | String c s' => (is_space c && all_space s')%bool
  | EmptyString => true
  end.

(** Digits, with single underscores between them, then white space. *)
Fixpoint digits (acc : Z) (after_underscore : bool) (s : string) : option Z :=
  match s with
  | EmptyString => if after_underscore then None else Some acc
  | String c s' =>
      match digit c with
      | Some d => digits (10 * acc + d) false s'
      | None =>
          if after_underscore then None
          else if Ascii.eqb c "_"%char then digits acc true s'
          else if all_space s then Some acc
          else None
      end
  end.

Definition unsigned (s : string) : option Z :=
  match s with
  | String c s' =>
      match digit c with
      | Some d => digits d false s'
      | None => None
      end
  | EmptyString => None
  end.

(** The builtin [int(str)] on decimal literals. *)
Definition py_int (raw : string) : option Z :=
  match lstrip raw with
  | String "-" s => option_map Z.opp (unsigned s)
  | String "+" s => unsigned s
  | s => unsigned s
  end.

Definition int_ (raw : string) : result Z :=
  match py_int raw with
  | Some z => Ok z
  | None => Raise (ValueError "invalid literal for int() with base 10")
  end.

Definition float_ (E : environment) (raw : string) : result float :=
  match float_of_str E raw with
  | Some x => Ok x
  | None => Raise (ValueError "could not convert string to float")
  end.

Definition str_ (raw : string) : result string := Ok raw.

(** [ArgumentParser._get_value]: a [ValueError] of the callable is a
    usage error, any other exception of the callable propagates. *)
Definition get_value {A} (type_func : string -> result A) (raw : string)
  : result A :=
  match type_func raw with
  | Raise (ValueError _) => Raise (SystemExit 2)
  | r => r
  end.

Definition void {A} (r : result A) : result unit :=
  match r with Ok _ => Ok tt | Raise e => Raise e end.

Definition parser := list (string * (string -> result unit)).

Definition checker {A} (type_func : string -> result A) : string -> result unit :=
  fun raw => void (get_value type_func raw).

Fixpoint find {A} (flag : string) (l : list (string * A)) : option A :=
  match l with
  | [] => None
  | (k, v) :: l' => if String.eqb k flag then Some v else find flag l'
  end.

(** Convert the values in command-line order; unknown flags are
    reported once the whole line has been read. *)
Fixpoint scan (p : parser) (argv : list (string * string)) (extras : bool)
  : result unit :=
  match argv with
  | [] => if extras then Raise (SystemExit 2) else Ok tt
  | (flag, raw) :: argv' =>
      match find flag p with
      | None => scan p argv' true
      | Some check =>
          match check raw with
          | Ok _ => scan p argv' extras
          | Raise e => Raise e
          end
      end
  end.

(** The value stored for [flag]: its last occurrence, or the default. *)
Definition arg {A} (argv : list (string * string)) (flag : string)
    (type_func : string -> result A) (default : A) : result A :=
  match find flag (rev argv) with
  | Some raw => get_value type_func raw
  | None => Ok default
  end.

Definition rbind {A B} (r : result A) (k : A -> result B) : result B :=
  match r with Ok a => k a | Raise e => Raise e end.

End Argparse.

Notation "'let?' x ':=' r 'in' k" := (Argparse.rbind r (fun x => k))
  (at level 10, x pattern, r at level 100, k at level 200).

(** [os.environ.get(name, default)] *)
Definition environ_get (E : environment) (name default : string) : string :=
  match environ E !! name with
  | Some v => v
  | None => default
  end.

(** 1e-3, the default learning rate. *)
Definition lr_default : float := S754_finite false 4611686018427388 (-62).

(** * Variant A: [T4148_train_adamW.py] *)

Module AdamW.
Import Argparse.

Record Namespace := {
  data_dir : string;
  model_dir : string;
  device : string;
  num_workers : Z;
  image_size : Z;
  input_size : Z;
  batch_size : Z;
  learning_rate : float;
  max_epoch : Z;
  save_interval : Z;
  wandb_name : string;
  seed : Z;
  early_stop : Z
}.

(** adamW.py:38-57 *)
Definition parser (E : environment) : Argparse.parser :=
  [ ("--data_dir", checker str_);
    ("--model_dir", checker str_);
    ("--device", checker str_);
    ("--num_workers", checker int_);
    ("--image_size", checker int_);
    ("--input_size", checker int_);
    ("--batch_size", checker int_);
    ("--learning_rate", checker (float_ E));
    ("--max_epoch", checker int_);
    ("--save_interval", checker int_);
    ("--wandb_name", checker str_);
    ("--seed", checker int_);
    ("--early_stop", checker int_) ].

(** adamW.py:59, [parser.parse_args()] *)
Definition parse (E : environment) (argv : list (string * string))
  : result Namespace :=
  let? _ := scan (parser E) argv false in
  let? data_dir := arg argv "--data_dir" str_
      (environ_get E "SM_CHANNEL_TRAIN" "../input/data/ICDAR17_Korean") in
  let? model_dir := arg argv "--model_dir" str_
      (environ_get E "SM_MODEL_DIR" "trained_models") in
  let? device := arg argv "--device" str_
      (if cuda_is_available E then "cuda" else "cpu") in
  let? num_workers := arg argv "--num_workers" int_ 4 in
  let? image_size := arg argv "--image_size" int_ 1024 in
  let? input_size := arg argv "--input_size" int_ 512 in
  let? batch_size := arg argv "--batch_size" int_ 12 in
  let? learning_rate := arg argv "--learning_rate" (float_ E) lr_default in
  let? max_epoch := arg argv "--max_epoch" int_ 200 in
  let? save_interval := arg argv "--save_interval" int_ 5 in
  let? wandb_name := arg argv "--wandb_name" str_ "Unnamed Test" in
  let? seed := arg argv "--seed" int_ 42 in
  let? early_stop := arg argv "--early_stop" int_ 201 in
  Ok {| data_dir := data_dir; model_dir := model_dir; device := device;
        num_workers := num_workers; image_size := image_size;
        input_size := input_size; batch_size := batch_size;
        learning_rate := learning_rate; max_epoch := max_epoch;
        save_interval := save_interval; wandb_name := wandb_name;
        seed := seed; early_stop := early_stop |}.

(** adamW.py:37-64 *)
Definition parse_args (E : environment) (argv : list (string * string))
  : M Namespace :=
  let! args := lift (parse E argv) in
  let! r := lift (py_mod (input_size args) 32) in
  if negb (r =? 0) then
    raise (ValueError "`input_size` must be a multiple of 32")
  else pure args.

(** The locals of [do_training] that live across iterations. *)
Record locals := {
  early_stop_cnt : Z;
  best_score : float;
  epoch_loss : float
}.

Definition pth_name (X : script) (epoch : Z) : string :=
  (pretty (epoch + 1) ++ "epoch_" ++ now X epoch ++ ".pth")%string.

(** adamW.py:92-146, one iteration. *)
Definition epoch_body (X : script) (a : Namespace) (num_batches : Z)
    (epoch : Z) (st : locals) : M (locals * ctl) :=
  (* 92-113 *)
  let! losses := invoke (CallTrainEpoch epoch) (train_epoch X epoch) in
  let epoch_loss := fold_left fadd losses (float_of_int 0) in
  (* 116-117: epoch_loss / num_batches *)
  (if num_batches =? 0 then raise ZeroDivisionError
   else emit (Print (MsgMeanLoss (Some (early_stop_cnt st)))));;
  (* 119-130 *)
  let! st1 :=
    if flt epoch_loss (best_score st) then
      let best := epoch_loss in
      emit (Print (MsgNewBest (epoch + 1) best));;
      Os.torch_save (PyStr.join (model_dir a) "best_model.pth");;
      pure {| early_stop_cnt := early_stop_cnt st;
              best_score := best;
              epoch_loss := epoch_loss |}
    else
      pure {| early_stop_cnt := early_stop_cnt st + 1;
              best_score := best_score st;
              epoch_loss := epoch_loss |} in
  (* 132-134 *)
  if early_stop a <? early_stop_cnt st1 then
    emit (Print MsgNoMoreBest);;
    pure (st1, Break)
  else
    (* 137-146 *)
    let! r := lift (py_mod (epoch + 1) (save_interval a)) in
    (if r =? 0 then periodic_save X (model_dir a) epoch (pth_name X epoch)
     else pure tt);;
    pure (st1, Next).

(** adamW.py:88-89 *)
Definition init : locals :=
  {| early_stop_cnt := 0;
     best_score := float_of_int 9999;
     epoch_loss := float_of_int 0 |}.

(** adamW.py:69-86: everything before the loop; the value is
    [num_batches]. *)
Definition setup (X : script) (a : Namespace) : M Z :=
  invoke (CallSeed (seed a)) (seed_everything X (seed a));;
  let! n := invoke (CallSceneTextDataset (data_dir a) Train)
              (scene_text_dataset X (data_dir a) Train (image_size a) (input_size a)) in
  let! n := invoke CallEASTDataset (east_dataset X n) in
  let! num_batches := lift (ceil_div n (batch_size a)) in
  invoke (CallDataLoader Train) (data_loader X Train);;
  invoke CallBuildModel (build_model X);;
  pure num_batches.

Definition do_training (X : script) (a : Namespace) : M locals :=
  let! num_batches := setup X a in
  for_range (epoch_body X a num_batches) (Z.to_nat (max_epoch a)) 0 init.

End AdamW.

(** * Variant B: [T4148_train_loader.py] *)

Module Loader.
Import Argparse.

(** loader.py:42-50.  The module [argparse] is never imported under
    that name (only [ArgumentParser] is), so evaluating
    [argparse.ArgumentTypeError] in the last branch raises
    [NameError]. *)
Definition str2bool (v : pyval) : result bool :=
  match v with
  | VBool b => Ok b
  | VStr s =>
      if PyStr.mem (PyStr.lower s) ["yes"; "true"; "t"; "y"; "1"] then Ok true
      else if PyStr.mem (PyStr.lower s) ["no"; "false"; "f"; "n"; "0"] then Ok false
      else Raise (NameError "argparse")
  | VInt _ => Raise (AttributeError "lower")
  end.

Record Namespace := {
  data_dir : string;
  model_dir : string;
  device : string;
  num_workers : Z;
  image_size : Z;
  input_size : Z;
  batch_size : Z;
  learning_rate : float;
  max_epoch : Z;
  save_interval : Z;
  wandb_name : string;
  seed : Z;
  use_val : bool;
  val_interval : Z;
  early_stop : Z
}.

(** loader.py:56-75 *)
Definition parser (E : environment) : Argparse.parser :=
  [ ("--data_dir", checker str_);
    ("--model_dir", checker str_);
    ("--device", checker str_);
    ("--num_workers", checker int_);
    ("--image_size", checker int_);
    ("--input_size", checker int_);
    ("--batch_size", checker int_);
    ("--learning_rate", checker (float_ E));
    ("--max_epoch", checker int_);
    ("--save_interval", checker int_);
    ("--wandb_name", checker str_);
    ("--seed", checker int_);
    ("--use_val", checker (fun raw => str2bool (VStr raw)));
    ("--val_interval", checker int_);
    ("--early_stop", checker int_) ].

(** loader.py:77, [parser.parse_args()] *)
Definition parse (E : environment) (argv : list (string * string))
  : result Namespace :=
  let? _ := scan (parser E) argv false in
  let? data_dir := arg argv "--data_dir" str_
      (environ_get E "SM_CHANNEL_TRAIN" "../input/data/ICDAR17_Korean") in
  let? model_dir := arg argv "--model_dir" str_
      (environ_get E "SM_MODEL_DIR" "trained_models") in
  let? device := arg argv "--device" str_
      (if cuda_is_available E then "cuda" else "cpu") in
  let? num_workers := arg argv "--num_workers" int_ 4 in
  let? image_size := arg argv "--image_size" int_ 1024 in
  let? input_size := arg argv "--input_size" int_ 512 in
  let? batch_size := arg argv "--batch_size" int_ 12 in
  let? learning_rate := arg argv "--learning_rate" (float_ E) lr_default in
  let? max_epoch := arg argv "--max_epoch" int_ 200 in
  let? save_interval := arg argv "--save_interval" int_ 5 in
  let? wandb_name := arg argv "--wandb_name" str_ "Unnamed Test" in
  let? seed := arg argv "--seed" int_ 42 in
  let? use_val := arg argv "--use_val" (fun raw => str2bool (VStr raw)) true in
  let? val_interval := arg argv "--val_interval" int_ 1 in
  let? early_stop := arg argv "--early_stop" int_ 20 in
  Ok {| data_dir := data_dir; model_dir := model_dir; device := device;
        num_workers := num_workers; image_size := image_size;
        input_size := input_size; batch_size := batch_size;
        learning_rate := learning_rate; max_epoch := max_epoch;
        save_interval := save_interval; wandb_name := wandb_name;
        seed := seed; use_val := use_val; val_interval := val_interval;
        early_stop := early_stop |}.

(** [args.use_val = False] *)
Definition set_use_val (b : bool) (a : Namespace) : Namespace :=
  {| data_dir := data_dir a; model_dir := model_dir a; device := device a;
     num_workers := num_workers a; image_size := image_size a;
     input_size := input_size a; batch_size := batch_size a;
     learning_rate := learning_rate a; max_epoch := max_epoch a;
     save_interval := save_interval a; wandb_name := wandb_name a;
     seed := seed a; use_val := b; val_interval := val_interval a;
     early_stop := early_stop a |}.

Definition val_json (a : Namespace) : string :=
  PyStr.join (data_dir a) "ufo/val.json".

(** loader.py:53-87 *)
Definition parse_args (E : environment) (argv : list (string * string))
  : M Namespace :=
  let! args := lift (parse E argv) in
  let! r := lift (py_mod (input_size args) 32) in
  if negb (r =? 0) then
    raise (ValueError "`input_size` must be a multiple of 32")
  else
    let! found := (if use_val args then Os.isfile (val_json args)
                   else pure true) in
    if (use_val args && negb found)%bool then
      emit (Print MsgValNotFound);;
      emit (Print MsgForceReset);;
      pure (set_use_val false args)
    else pure args.

(** The locals of [do_training] that live across iterations; [ret] is
    unbound until the validation loop has run its body once. *)
Record locals := {
  stop_cnt : Z;
  best_score : float;
  ret : option float
}.

(** [(wandb_name.replace(" ", "_")).lower()] *)
Definition run_name (a : Namespace) : string :=
  PyStr.lower (PyStr.replace_space (wandb_name a)).

Definition best_pth_name (a : Namespace) : string :=
  (run_name a ++ "_best_model.pth")%string.

Definition pth_name (X : script) (a : Namespace) (epoch : Z) : string :=
  (run_name a ++ "_" ++ pretty (epoch + 1) ++ "epoch_" ++ now X epoch
   ++ ".pth")%string.

(** loader.py:154, [use_val and (epoch + 1) % val_interval == 0]: the
    remainder is not evaluated when [use_val] is false. *)
Definition validates (a : Namespace) (epoch : Z) : result bool :=
  if use_val a then
    let? r := py_mod (epoch + 1) (val_interval a) in Ok (r =? 0)
  else Ok false.

(** loader.py:120-204, one iteration. *)
Definition epoch_body (X : script) (a : Namespace) (train_num_batches : Z)
    (epoch : Z) (st : locals) : M (locals * ctl) :=
  (* 120-145 *)
  invoke (CallTrainEpoch epoch) (train_epoch X epoch);;
  (* 147-152: epoch_loss / train_num_batches *)
  (if train_num_batches =? 0 then raise ZeroDivisionError
   else if stop_cnt st =? 0 then emit (Print (MsgMeanLoss None))
   else emit (Print (MsgMeanLoss (Some (stop_cnt st)))));;
  (* 154-189 *)
  let! v := lift (validates a epoch) in
  let! st1 :=
    if v then
      let! hmeans := invoke (CallValidate epoch) (validate X epoch) in
      let ret' := match last hmeans with
                  | Some h => Some h
                  | None => ret st
                  end in
      match ret' with
      | None => raise (NameError "ret")
      | Some f1_score =>
          if flt (best_score st) f1_score then
            emit (Print (MsgNewBest (epoch + 1) f1_score));;
            Os.torch_save (PyStr.join (model_dir a) (best_pth_name a));;
            symlink_force (best_pth_name a)
              (PyStr.join (model_dir a) "best_model.pth");;
            pure {| stop_cnt := 0; best_score := f1_score; ret := ret' |}
          else
            pure {| stop_cnt := stop_cnt st + 1;
                    best_score := best_score st;
                    ret := ret' |}
      end
    else pure st in
  (* 191-199 *)
  let! r := lift (py_mod (epoch + 1) (save_interval a)) in
  (if r =? 0 then periodic_save X (model_dir a) epoch (pth_name X a epoch)
   else pure tt);;
  (* 202-204 *)
  if early_stop a <? stop_cnt st1 then
    emit (Print MsgNoMoreBest);;
    pure (st1, Break)
  else pure (st1, Next).

(** loader.py:117-118 *)
Definition init : locals :=
  {| stop_cnt := 0; best_score := float_of_int 0; ret := None |}.

(** loader.py:92-114: everything before the loop; the value is
    [train_num_batches]. *)
Definition setup (X : script) (a : Namespace) : M Z :=
  invoke (CallSeed (seed a)) (seed_everything X (seed a));;
  (* 100-103 *)
  let! n := invoke (CallSceneTextDataset (data_dir a) Train)
              (scene_text_dataset X (data_dir a) Train (image_size a) (input_size a)) in
  let! n := invoke CallEASTDataset (east_dataset X n) in
  let! train_num_batches := lift (ceil_div n (batch_size a)) in
  invoke (CallDataLoader Train) (data_loader X Train);;
  (* 106-109 *)
  let! m := invoke (CallSceneTextDataset (data_dir a) Val)
              (scene_text_dataset X (data_dir a) Val (image_size a) (input_size a)) in
  let! _ := lift (ceil_div m (batch_size a)) in
  invoke (CallDataLoader Val) (data_loader X Val);;
  (* 111-114 *)
  invoke CallBuildModel (build_model X);;
  pure train_num_batches.

Definition do_training (X : script) (a : Namespace) : M locals :=
  let! train_num_batches := setup X a in
  for_range (epoch_body X a train_num_batches) (Z.to_nat (max_epoch a)) 0 init.

End Loader.

(** * Vocabulary of the properties and scenarios *)

(** A computation only ever adds events at the end of the trace. *)
Definition appends {A} (m : M A) : Prop :=
  forall w r w', m w = (r, w') -> exists t, trace w' = trace w ++ t.

(** The directory that is to hold [link_name] is there. *)
Definition parent_ok (w : world) (link_name : string) : Prop :=
  link_name <> "" /\ Os.isdir_at (fs w) (PyStr.dirname link_name) = true.

(** Iteration [k] of the run of [body] started from [s0], [w0] took
    the locals from [s] to [s'], the world from [w] to [w'], and ended
    in [c]. *)
Definition epoch_ran {S : Type} (body : Z -> S -> M (S * ctl)) (s0 : S)
    (w0 : world) (k : nat) (s : S) (w : world) (s' : S) (c : ctl)
    (w' : world) : Prop :=
  after_epochs body k s0 w0 = Some (s, Next, w) /\
  body (Z.of_nat k) s w = (Ok (s', c), w').

(** The events of a successful [symlink_force]. *)
Definition symlink_events (retry : bool) (t l : string) : list event :=
  if retry
  then [Sys (SysSymlink t l); Sys (SysRemove l); Sys (SysSymlink t l)]
  else [Sys (SysSymlink t l)].

(** The events of a periodic save that went through. *)
Definition periodic_events (mk retry : bool) (model_dir : string) (epoch : Z)
    (pth_name : string) : list event :=
  (if mk then [Sys (SysMakedirs model_dir)] else []) ++
  [Call (CallNow epoch); Sys (TorchSave (PyStr.join model_dir pth_name))] ++
  symlink_events retry pth_name (PyStr.join model_dir "latest.pth").

(** The stored best score is beaten by the loss of the epoch
    (adamW.py:119, [best_score > epoch_loss]). *)
Definition adamw_improves (st : AdamW.locals) (loss : float) : bool :=
  flt loss (AdamW.best_score st).

Definition adamw_best_events (a : AdamW.Namespace) (epoch : Z) (loss : float)
  : list event :=
  [Print (MsgNewBest (epoch + 1) loss);
   Sys (TorchSave (PyStr.join (AdamW.model_dir a) "best_model.pth"))].

(** What a completed iteration of [AdamW.epoch_body] has done. *)
Definition adamw_epoch_post (X : script) (a : AdamW.Namespace) (e : Z)
    (st : AdamW.locals) (w : world) (st' : AdamW.locals) (c : ctl)
    (w' : world) (losses : list float) (tp : list event) : Prop :=
  train_epoch X e = Ok losses /\
  let loss := fold_left fadd losses (float_of_int 0) in
  let improved := adamw_improves st loss in
  st' = {| AdamW.early_stop_cnt :=
             if improved then AdamW.early_stop_cnt st
             else AdamW.early_stop_cnt st + 1;
           AdamW.best_score := if improved then loss else AdamW.best_score st;
           AdamW.epoch_loss := loss |} /\
  c = (if AdamW.early_stop a <? AdamW.early_stop_cnt st' then Break else Next) /\
  trace w' =
    trace w ++
    [Call (CallTrainEpoch e);
     Print (MsgMeanLoss (Some (AdamW.early_stop_cnt st)))] ++
    (if improved then adamw_best_events a e loss else []) ++ tp /\
  (if AdamW.early_stop a <? AdamW.early_stop_cnt st'
   then tp = [Print MsgNoMoreBest]
   else exists r,
       py_mod (e + 1) (AdamW.save_interval a) = Ok r /\
       if r =? 0 then
         (exists mk retry,
            tp = periodic_events mk retry (AdamW.model_dir a) e
                   (AdamW.pth_name X e)) /\
         fs w' !! PyStr.join (AdamW.model_dir a) "latest.pth"
           = Some (Symlink (AdamW.pth_name X e))
       else tp = []).

(** The events of the validation branch (loader.py:154-189). *)
Definition loader_best_events (retry : bool) (a : Loader.Namespace) (e : Z)
    (f1_score : float) : list event :=
  [Print (MsgNewBest (e + 1) f1_score);
   Sys (TorchSave (PyStr.join (Loader.model_dir a) (Loader.best_pth_name a)))] ++
  symlink_events retry (Loader.best_pth_name a)
    (PyStr.join (Loader.model_dir a) "best_model.pth").

(** The validation branch of a completed iteration: it is taken when
    [v] holds, reads the F1 score off [ret] and updates the locals. *)
Definition loader_validation_post (X : script) (a : Loader.Namespace) (e : Z)
    (st st' : Loader.locals) (v : bool) (tv : list event) : Prop :=
  if v then
    exists hmeans f1_score,
      validate X e = Ok hmeans /\
      Loader.ret st' = Some f1_score /\
      Loader.ret st' = match last hmeans with
                       | Some h => Some h
                       | None => Loader.ret st
                       end /\
      if flt (Loader.best_score st) f1_score then
        Loader.best_score st' = f1_score /\ Loader.stop_cnt st' = 0 /\
        exists retry,
          tv = Call (CallValidate e) :: loader_best_events retry a e f1_score
      else
        Loader.best_score st' = Loader.best_score st /\
        Loader.stop_cnt st' = Loader.stop_cnt st + 1 /\
        tv = [Call (CallValidate e)]
  else st' = st /\ tv = [].

(** What a completed iteration of [Loader.epoch_body] has done. *)
Definition loader_epoch_post (X : script) (a : Loader.Namespace) (e : Z)
    (st : Loader.locals) (w : world) (st' : Loader.locals) (c : ctl)
    (w' : world) (v : bool) (tv tp : list event) : Prop :=
  Loader.validates a e = Ok v /\
  loader_validation_post X a e st st' v tv /\
  (exists r,
      py_mod (e + 1) (Loader.save_interval a) = Ok r /\
      if r =? 0 then
        (exists mk retry,
           tp = periodic_events mk retry (Loader.model_dir a) e
                  (Loader.pth_name X a e)) /\
        fs w' !! PyStr.join (Loader.model_dir a) "latest.pth"
          = Some (Symlink (Loader.pth_name X a e))
      else tp = []) /\
  c = (if Loader.early_stop a <? Loader.stop_cnt st' then Break else Next) /\
  trace w' =
    trace w ++
    [Call (CallTrainEpoch e);
     Print (MsgMeanLoss (if Loader.stop_cnt st =? 0 then None
                         else Some (Loader.stop_cnt st)))] ++
    tv ++ tp ++
    (if Loader.early_stop a <? Loader.stop_cnt st'
     then [Print MsgNoMoreBest] else []).

(** Collaborators that never fail: a data set of 24 samples, one batch
    per epoch whose loss is given by [losses], one validation batch per
    pass whose F1 is given by [hmeans]. *)
Definition quiet_script (losses hmeans : Z -> float) : script :=
  {| seed_everything := fun _ => Ok tt;
     scene_text_dataset := fun _ _ _ _ => Ok 24;
     east_dataset := fun n => Ok n;
     data_loader := fun _ => Ok tt;
     build_model := Ok tt;
     train_epoch := fun e => Ok [losses e];
     validate := fun e => Ok [hmeans e];
     now := fun _ => "230101_000000" |}.

(** The end-to-end scenario: losses 2.0, 3.0, 4.0, ... *)
Definition rising_losses : script :=
  quiet_script (fun e => float_of_int (2 + e)) (fun _ => float_of_int 1).

Definition plain_env : environment :=
  {| environ := ∅; cuda_is_available := false; float_of_str := fun _ => None |}.

(** The checkpoint directory exists and is empty. *)
Definition fresh_world : world :=
  {| fs := {["trained_models" := Dir]}; trace := [] |}.

Definition adamw_args (max_epoch save_interval early_stop : Z)
  : AdamW.Namespace :=
  {| AdamW.data_dir := "../input/data/ICDAR17_Korean";
     AdamW.model_dir := "trained_models";
     AdamW.device := "cpu";
     AdamW.num_workers := 4;
     AdamW.image_size := 1024;
     AdamW.input_size := 512;
     AdamW.batch_size := 12;
     AdamW.learning_rate := lr_default;
     AdamW.max_epoch := max_epoch;
     AdamW.save_interval := save_interval;
     AdamW.wandb_name := "Unnamed Test";
     AdamW.seed := 42;
     AdamW.early_stop := early_stop |}.

Definition loader_args (max_epoch save_interval : Z) (use_val : bool)
    (val_interval early_stop : Z) : Loader.Namespace :=
  {| Loader.data_dir := "../input/data/ICDAR17_Korean";
     Loader.model_dir := "trained_models";
     Loader.device := "cpu";
     Loader.num_workers := 4;
     Loader.image_size := 1024;
     Loader.input_size := 512;
     Loader.batch_size := 12;
     Loader.learning_rate := lr_default;
     Loader.max_epoch := max_epoch;
     Loader.save_interval := save_interval;
     Loader.wandb_name := "Unnamed Test";
     Loader.seed := 42;
     Loader.use_val := use_val;
     Loader.val_interval := val_interval;
     Loader.early_stop := early_stop |}.

(** Epoch [e] is a validation epoch (loader.py:154). *)
Definition loader_validation_epoch (a : Loader.Namespace) (e : Z) : Prop :=
  Loader.validates a e = Ok true.

(** An F1 score of 0.5 on the first validation pass and 0.25 afterwards. *)
Definition falling_f1 : script :=
  quiet_script (fun e => float_of_int (2 + e))
    (fun e => if e =? 0 then S754_finite false 4503599627370496 (-53)
              else S754_finite false 4503599627370496 (-54)).

(** Among the events [t] of an iteration: the weights were saved under
    [name] in [model_dir], and [latest.pth] was pointed at them. *)
Definition periodic_checkpoint_written (model_dir name : string)
    (t : list event) : Prop :=
  In (Sys (TorchSave (PyStr.join model_dir name))) t /\
  In (Sys (SysSymlink name (PyStr.join model_dir "latest.pth"))) t.

Definition truthy : list string := ["yes"; "true"; "t"; "y"; "1"].
Definition falsy : list string := ["no"; "false"; "f"; "n"; "0"].

Definition input_size_error : exn :=
  ValueError "`input_size` must be a multiple of 32".

(** [os.path.isfile] on the file system of [w]. *)
Definition isfile_at (w : world) (p : string) : bool :=
  match Os.stat (fs w) p with
  | Some File => true
  | _ => false
  end.

(** The library never lets a [ValueError] out of [parser.parse_args()]. *)
Definition not_value_error {A} (r : result A) : Prop :=
  forall msg, r <> Raise (ValueError msg).

(** The data directory holds the validation index. *)
Definition world_with_val_json : world :=
  {| fs := {["../input/data/ICDAR17_Korean/ufo/val.json" := File]};
     trace := [] |}.

(** Two configurations of Variant B agree on every attribute but
    [use_val]. *)
Definition agree_but_use_val (a a' : Loader.Namespace) : Prop :=
  Loader.data_dir a' = Loader.data_dir a /\
  Loader.model_dir a' = Loader.model_dir a /\
  Loader.device a' = Loader.device a /\
  Loader.num_workers a' = Loader.num_workers a /\
  Loader.image_size a' = Loader.image_size a /\
  Loader.input_size a' = Loader.input_size a /\
  Loader.batch_size a' = Loader.batch_size a /\
  Loader.learning_rate a' = Loader.learning_rate a /\
  Loader.max_epoch a' = Loader.max_epoch a /\
  Loader.save_interval a' = Loader.save_interval a /\
  Loader.wandb_name a' = Loader.wandb_name a /\
  Loader.seed a' = Loader.seed a /\
  Loader.val_interval a' = Loader.val_interval a /\
  Loader.early_stop a' = Loader.early_stop a.

(** The calls made by [Loader.do_training] up to the construction of
    the validation data set. *)
Definition loader_setup_calls (a : Loader.Namespace) : list event :=
  [Call (CallSeed (Loader.seed a));
   Call (CallSceneTextDataset (Loader.data_dir a) Train);
   Call CallEASTDataset;
   Call (CallDataLoader Train);
   Call (CallSceneTextDataset (Loader.data_dir a) Val)].

(** The validation index is missing and the data set constructor fails
    on it. *)
Definition no_val_split : script :=
  {| seed_everything := fun _ => Ok tt;
     scene_text_dataset := fun _ s _ _ =>
       match s with
       | Train => Ok 24
       | Val => Raise (CollaboratorError "ufo/val.json")
       end;
     east_dataset := fun n => Ok n;
     data_loader := fun _ => Ok tt;
     build_model := Ok tt;
     train_epoch := fun e => Ok [float_of_int (2 + e)];
     validate := fun e => Ok [];
     now := fun _ => "230101_000000" |}.

(** The validation index is there, and [DataLoader] fails on the
    validation data set. *)
Definition no_val_loader : script :=
  {| seed_everything := fun _ => Ok tt;
     scene_text_dataset := fun _ _ _ _ => Ok 24;
     east_dataset := fun n => Ok n;
     data_loader := fun s =>
       match s with
       | Train => Ok tt
       | Val => Raise (CollaboratorError "DataLoader")
       end;
     build_model := Ok tt;
     train_epoch := fun e => Ok [float_of_int (2 + e)];
     validate := fun e => Ok [];
     now := fun _ => "230101_000000" |}.

(** [m] leaves the entry of the path [k] as it is, when that entry is
    [x]; whether [m] returns or raises. *)
Definition keeps_entry {A} (k : string) (x : node) (m : M A) : Prop :=
  forall w r w', m w = (r, w') -> fs w !! k = Some x -> fs w' !! k = Some x.

(** Every event that [m] adds to the trace satisfies [P]; whether [m]
    returns or raises. *)
Definition emits {A} (P : event -> Prop) (m : M A) : Prop :=
  forall w r w', m w = (r, w') ->
    exists t, trace w' = trace w ++ t /\ Forall P t.

(** The checkpoint directory holds a checkpoint of an earlier run. *)
Definition world_with_old_checkpoint : world :=
  {| fs := {["trained_models" := Dir; "trained_models/old.pth" := File]};
     trace := [] |}.

(** The index of the last epoch, among the first [k], on which the
    periodic checkpoint is due: the largest [e < k] with
    [(e + 1) % save_interval = 0]. *)
Definition last_periodic (save_interval : Z) (k : nat) : Z :=
  Z.of_nat k - Z.of_nat k mod save_interval - 1.

(** An event that only the validation branch of Variant B produces. *)
Definition validation_free (ev : event) : Prop :=
  match ev with
  | Call (CallValidate _) => False
  | Print (MsgNewBest _ _) => False
  | _ => True
  end.

(** The operations Variant A may make on the file system. *)
Definition adamw_footprint (X : script) (a : AdamW.Namespace) (ev : event)
  : Prop :=
  match ev with
  | Sys (TorchSave p) =>
      p = PyStr.join (AdamW.model_dir a) "best_model.pth" \/
      exists e, p = PyStr.join (AdamW.model_dir a) (AdamW.pth_name X e)
  | Sys (SysSymlink t l) =>
      l = PyStr.join (AdamW.model_dir a) "latest.pth" /\
      exists e, t = AdamW.pth_name X e
  | Sys (SysRemove p) => p = PyStr.join (AdamW.model_dir a) "latest.pth"
  | Sys (SysMakedirs p) => p = AdamW.model_dir a
  | _ => True
  end.

(** The operations Variant B may make on the file system. *)
Definition loader_footprint (X : script) (a : Loader.Namespace) (ev : event)
  : Prop :=
  match ev with
  | Sys (TorchSave p) =>
      p = PyStr.join (Loader.model_dir a) (Loader.best_pth_name a) \/
      exists e, p = PyStr.join (Loader.model_dir a) (Loader.pth_name X a e)
  | Sys (SysSymlink t l) =>
      (l = PyStr.join (Loader.model_dir a) "latest.pth" /\
       exists e, t = Loader.pth_name X a e) \/
      (l = PyStr.join (Loader.model_dir a) "best_model.pth" /\
       t = Loader.best_pth_name a)
  | Sys (SysRemove p) =>
      p = PyStr.join (Loader.model_dir a) "latest.pth" \/
      p = PyStr.join (Loader.model_dir a) "best_model.pth"
  | Sys (SysMakedirs p) => p = Loader.model_dir a
  | _ => True
  end.

(** [0 < best_score]: some validation epoch has improved on the initial
    score of Variant B. *)
Definition loader_has_best (st : Loader.locals) : Prop :=
  flt (float_of_int 0) (Loader.best_score st) = true.

(** adamW.py:151-161 and loader.py:207-217: [main] and the entry point
    of each script.  [wandb.init] is a collaborator; [wandb_init name]
    is what it returns or raises for the run name. *)
Definition adamw_main (wandb_init : string -> result unit) (X : script)
    (args : AdamW.Namespace) : M AdamW.locals :=
  lift (wandb_init (AdamW.wandb_name args));;
  AdamW.do_training X args.

Definition adamw_entry (E : environment) (argv : list (string * string))
    (wandb_init : string -> result unit) (X : script) : M AdamW.locals :=
  let! args := AdamW.parse_args E argv in
  adamw_main wandb_init X args.

Definition loader_main (wandb_init : string -> result unit) (X : script)
    (args : Loader.Namespace) : M Loader.locals :=
  lift (wandb_init (Loader.wandb_name args));;
  Loader.do_training X args.

Definition loader_entry (E : environment) (argv : list (string * string))
    (wandb_init : string -> result unit) (X : script) : M Loader.locals :=
  let! args := Loader.parse_args E argv in
  loader_main wandb_init X args.

(** Every value of the command line [argv] is accepted by the callable
    of its flag in the parser [p]. *)
Definition values_accepted (p : Argparse.parser)
    (argv : list (string * string)) : Prop :=
  Forall (fun fr => forall chk, Argparse.find (fst fr) p = Some chk ->
                                chk (snd fr) = Ok tt) argv.

(** What a run leaves when it returns. *)
Definition outcome {A} (p : result A * world) : option (A * world) :=
  match fst p with
  | Ok x => Some (x, snd p)
  | Raise _ => None
  end.

(** * Properties *)

(** ** Running the monad *)

Lemma bind_run {A B} (m : M A) (k : A -> M B) w :
  bind m k w =
  match m w with
  | (Ok a, w') => k a w'
  | (Raise e, w') => (Raise e, w')
  end.
Proof. reflexivity. Qed.

Lemma bind_inv {A B} (m : M A) (k : A -> M B) w r w' :
  bind m k w = (r, w') ->
  (exists a w1, m w = (Ok a, w1) /\ k a w1 = (r, w')) \/
  (exists e, m w = (Raise e, w') /\ r = Raise e).
Proof.
  rewrite bind_run. destruct (m w) as [[a|e] w1]; intros H.
  - left. eauto.
  - right. exists e. inversion H; subst. auto.
Qed.

Lemma appends_pure {A} (a : A) : appends (pure a).
Proof. intros w r w' H. inversion H; subst. exists []. by rewrite app_nil_r. Qed.

Lemma appends_raise {A} e : appends (@raise A e).
Proof. intros w r w' H. inversion H; subst. exists []. by rewrite app_nil_r. Qed.

Lemma appends_lift {A} (x : result A) : appends (lift x).
Proof. intros w r w' H. inversion H; subst. exists []. by rewrite app_nil_r. Qed.

Lemma appends_emit e : appends (emit e).
Proof. intros w r w' H. inversion H; subst. by exists [e]. Qed.

Lemma appends_get_fs : appends get_fs.
Proof. intros w r w' H. inversion H; subst. exists []. by rewrite app_nil_r. Qed.

Lemma appends_put_fs f : appends (put_fs f).
Proof. intros w r w' H. inversion H; subst. exists []. simpl. by rewrite app_nil_r. Qed.

Lemma appends_bind {A B} (m : M A) (k : A -> M B) :
  appends m -> (forall a, appends (k a)) -> appends (bind m k).
Proof.
  intros Hm Hk w r w' H. apply bind_inv in H as [(a & w1 & H1 & H2)|(e & H1 & _)].
  - apply Hm in H1 as [t1 E1]. apply Hk in H2 as [t2 E2].
    exists (t1 ++ t2). by rewrite E2, E1, app_assoc.
  - by apply Hm in H1.
Qed.

Lemma appends_try {A} (m : M A) (h : exn -> M A) :
  appends m -> (forall e, appends (h e)) -> appends (try_except m h).
Proof.
  intros Hm Hh w r w' H. unfold try_except in H.
  destruct (m w) as [[a|e] w1] eqn:E.
  - inversion H; subst. by apply Hm in E.
  - apply Hm in E as [t1 E1]. apply Hh in H as [t2 E2].
    exists (t1 ++ t2). by rewrite E2, E1, app_assoc.
Qed.

Lemma appends_invoke {A} c (x : result A) : appends (invoke c x).
Proof.
  apply appends_bind; [apply appends_emit | intros; apply appends_lift].
Qed.

Create HintDb appends.
#[local] Hint Resolve appends_pure appends_raise appends_lift appends_emit
  appends_get_fs appends_put_fs appends_invoke : appends.

Ltac appends_step :=
  match goal with
  | |- appends (bind _ _) => apply appends_bind; [| intros ?]
  | |- appends (try_except _ _) => apply appends_try; [| intros ?]
  | |- appends (if ?b then _ else _) => destruct b
  | |- appends (match ?x with _ => _ end) => destruct x
  | |- appends _ => solve [auto with appends]
  end.

Ltac appends_tac := repeat appends_step.

Lemma appends_symlink t l : appends (Os.symlink t l).
Proof. unfold Os.symlink. appends_tac. Qed.

Lemma appends_remove p : appends (Os.remove p).
Proof. unfold Os.remove. appends_tac. Qed.

Lemma appends_makedirs p : appends (Os.makedirs p).
Proof. unfold Os.makedirs. appends_tac. Qed.

Lemma appends_torch_save p : appends (Os.torch_save p).
Proof. unfold Os.torch_save. appends_tac. Qed.

Lemma appends_exists p : appends (Os.exists_ p).
Proof. unfold Os.exists_. appends_tac. Qed.

Lemma appends_isfile p : appends (Os.isfile p).
Proof. unfold Os.isfile. appends_tac. Qed.

#[local] Hint Resolve appends_symlink appends_remove appends_makedirs
  appends_torch_save appends_exists appends_isfile : appends.

Lemma appends_symlink_force t l : appends (symlink_force t l).
Proof. unfold symlink_force. appends_tac. Qed.

#[local] Hint Resolve appends_symlink_force : appends.

Lemma appends_periodic_save X d e n : appends (periodic_save X d e n).
Proof. unfold periodic_save. appends_tac. Qed.

#[local] Hint Resolve appends_periodic_save : appends.

(** ** [os.symlink] and [os.remove] on the model *)

Lemma symlink_run t l w :
  Os.symlink t l w =
  let w1 := World (fs w) (trace w ++ [Sys (SysSymlink t l)]) in
  if String.eqb l "" then (Raise (OSError ENOENT), w1)
  else if negb (Os.isdir_at (fs w) (PyStr.dirname l)) then (Raise (OSError ENOENT), w1)
  else match fs w !! l with
       | Some _ => (Raise (OSError EEXIST), w1)
       | None => (Ok tt, World (<[l := Symlink t]> (fs w)) (trace w1))
       end.
Proof.
  unfold Os.symlink, bind, emit, get_fs, put_fs, raise. simpl.
  destruct (String.eqb l ""); [reflexivity|].
  destruct (negb _); [reflexivity|].
  destruct (fs w !! l); reflexivity.
Qed.

Lemma remove_run p w :
  Os.remove p w =
  let w1 := World (fs w) (trace w ++ [Sys (SysRemove p)]) in
  match fs w !! p with
  | None => (Raise (OSError ENOENT), w1)
  | Some Dir => (Raise (OSError EISDIR), w1)
  | Some _ => (Ok tt, World (delete p (fs w)) (trace w1))
  end.
Proof.
  unfold Os.remove, bind, emit, get_fs, put_fs, raise. simpl.
  destruct (fs w !! p) as [[]|]; reflexivity.
Qed.

Lemma parent_ok_eqb w l :
  parent_ok w l ->
  String.eqb l "" = false /\ negb (Os.isdir_at (fs w) (PyStr.dirname l)) = false.
Proof.
  intros [Hne Hd]. split.
  - by apply String.eqb_neq.
  - by rewrite Hd.
Qed.

(** Changing the entry of [l] itself does not change whether the
    directory of [l] is there, unless [l] is that directory. *)
Lemma isdir_at_other (f g : gmap string node) l :
  (forall p, p <> l -> g !! p = f !! p) ->
  f !! l <> Some Dir -> l <> "" ->
  Os.isdir_at f (PyStr.dirname l) = true ->
  Os.isdir_at g (PyStr.dirname l) = true.
Proof.
  intros Hfg Hl Hne. unfold Os.isdir_at.
  destruct (String.eqb (PyStr.dirname l) "") eqn:E; [done|].
  destruct (decide (PyStr.dirname l = l)) as [Heq|Hneq].
  - rewrite Heq. destruct (f !! l) as [[]|]; done.
  - by rewrite Hfg.
Qed.

(** What a successful [symlink_force] leaves behind. *)
Lemma symlink_force_ok t l w w1 :
  symlink_force t l w = (Ok tt, w1) ->
  parent_ok w1 l /\ fs w1 !! l = Some (Symlink t).
Proof.
  unfold symlink_force, try_except. rewrite symlink_run. simpl.
  destruct (String.eqb l "") eqn:El; [discriminate|].
  apply String.eqb_neq in El.
  destruct (Os.isdir_at (fs w) (PyStr.dirname l)) eqn:Ed; simpl; [|discriminate].
  destruct (fs w !! l) as [n|] eqn:En.
  - rewrite bind_run, remove_run. simpl. rewrite En.
    assert (Hd : Os.isdir_at (delete l (fs w)) (PyStr.dirname l) = true
                 \/ n = Dir).
    { destruct (decide (n = Dir)) as [->|Hn]; [by right|left].
      apply (isdir_at_other (fs w)); auto.
      - intros p Hp. by rewrite lookup_delete_ne.
      - rewrite En. congruence. }
    destruct n; try discriminate.
    + destruct Hd as [Hd|]; [|discriminate].
      rewrite symlink_run. simpl.
      destruct (String.eqb l "") eqn:El'; [by apply String.eqb_eq in El'|].
      rewrite Hd. simpl. rewrite lookup_delete_eq.
      intros H. inversion H; subst; clear H. simpl. split.
      * split; [done|]. simpl.
        apply (isdir_at_other (delete l (fs w))); auto.
        -- intros p Hp. by rewrite lookup_insert_ne.
        -- by rewrite lookup_delete_eq.
      * by rewrite lookup_insert_eq.
    + destruct Hd as [Hd|]; [|discriminate].
      rewrite symlink_run. simpl.
      destruct (String.eqb l "") eqn:El'; [by apply String.eqb_eq in El'|].
      rewrite Hd. simpl. rewrite lookup_delete_eq.
      intros H. inversion H; subst; clear H. simpl. split.
      * split; [done|]. simpl.
        apply (isdir_at_other (delete l (fs w))); auto.
        -- intros p Hp. by rewrite lookup_insert_ne.
        -- by rewrite lookup_delete_eq.
      * by rewrite lookup_insert_eq.
  - intros H. inversion H; subst; clear H. simpl. split.
    + split; [done|]. simpl.
      apply (isdir_at_other (fs w)); auto.
      * intros p Hp. by rewrite lookup_insert_ne.
      * by rewrite En.
    + by rewrite lookup_insert_eq.
Qed.

Lemma symlink_force_replace t l w n :
  parent_ok w l -> fs w !! l = Some n -> n <> Dir ->
  symlink_force t l w =
  (Ok tt, World (<[l := Symlink t]> (delete l (fs w)))
            (trace w ++ [Sys (SysSymlink t l); Sys (SysRemove l);
                         Sys (SysSymlink t l)])).
Proof.
  intros Hp Hl Hn. pose proof Hp as [Hne Hd].
  apply parent_ok_eqb in Hp as [E1 E2].
  unfold symlink_force, try_except. rewrite symlink_run. simpl.
  rewrite E1, E2, Hl. rewrite bind_run, remove_run. simpl. rewrite Hl.
  assert (Hd' : Os.isdir_at (delete l (fs w)) (PyStr.dirname l) = true).
  { apply (isdir_at_other (fs w)); auto.
    - intros p Hp. by rewrite lookup_delete_ne.
    - rewrite Hl. congruence. }
  destruct n; try congruence;
    rewrite symlink_run; simpl; rewrite E1, Hd', lookup_delete_eq; simpl;
    by rewrite <- !app_assoc.
Qed.

(** ** The order on scores *)

Ltac cmp_cases :=
  repeat match goal with
    | H : context [Z.compare ?x ?y] |- _ => destruct (Z.compare_spec x y)
    | H : context [Pos.compare_cont Eq ?x ?y] |- _ =>
        change (Pos.compare_cont Eq x y) with (Pos.compare x y) in *;
        destruct (Pos.compare_spec x y)
    | |- context [Z.compare ?x ?y] => destruct (Z.compare_spec x y)
    | |- context [Pos.compare_cont Eq ?x ?y] =>
        change (Pos.compare_cont Eq x y) with (Pos.compare x y) in *;
        destruct (Pos.compare_spec x y)
    end.

Lemma flt_irrefl a : flt a a = false.
Proof.
  unfold flt, SFltb, SFcompare.
  destruct a as [[]|[]| |[] m e]; simpl; try reflexivity;
    cmp_cases; simpl; try reflexivity; lia.
Qed.

Lemma flt_trans a b c : flt a b = true -> flt b c = true -> flt a c = true.
Proof.
  unfold flt, SFltb, SFcompare.
  destruct a as [[]|[]| |[] ma ea], b as [[]|[]| |[] mb eb],
    c as [[]|[]| |[] mc ec]; simpl; intros H1 H2;
    try discriminate; try reflexivity;
    cmp_cases; simpl in *; subst; try discriminate; try reflexivity; lia.
Qed.

Lemma fle_refl a : fle a a.
Proof. by right. Qed.

Lemma fle_trans a b c : fle a b -> fle b c -> fle a c.
Proof.
  intros [H1| ->] [H2| <-]; [left|by left|by left|by right].
  eapply flt_trans; eauto.
Qed.

(** ** [symlink_force] *)

(** C8.  [symlink_force target link_name]: with no file at [link_name]
    the link is created by a single [os.symlink]; when [os.symlink]
    raises [EEXIST] the old entry is removed and [os.symlink] is called
    once more (and only once: whatever the removal or the second call
    raise propagates); any other error of the first call propagates
    unchanged.  Hence, after a call that succeeded, a second call on
    the same [link_name] succeeds and leaves the link pointing at its
    own target. *)
Theorem symlink_force_contract (target link_name : string) (w : world) :
  (parent_ok w link_name -> fs w !! link_name = None ->
   symlink_force target link_name w =
   (Ok tt, World (<[link_name := Symlink target]> (fs w))
             (trace w ++ [Sys (SysSymlink target link_name)]))) /\
  (forall w1,
     Os.symlink target link_name w = (Raise (OSError EEXIST), w1) ->
     symlink_force target link_name w =
     (Os.remove link_name;; Os.symlink target link_name) w1) /\
  (forall n,
     parent_ok w link_name -> fs w !! link_name = Some n -> n <> Dir ->
     symlink_force target link_name w =
     (Ok tt, World (<[link_name := Symlink target]> (delete link_name (fs w)))
               (trace w ++ [Sys (SysSymlink target link_name);
                            Sys (SysRemove link_name);
                            Sys (SysSymlink target link_name)]))) /\
  (forall e w1,
     Os.symlink target link_name w = (Raise e, w1) ->
     e <> OSError EEXIST ->
     symlink_force target link_name w = (Raise e, w1)) /\
  (forall target2 w1,
     symlink_force target link_name w = (Ok tt, w1) ->
     exists w2,
       symlink_force target2 link_name w1 = (Ok tt, w2) /\
       fs w2 !! link_name = Some (Symlink target2)).
Proof.
  repeat split.
  - intros Hp Hl. apply parent_ok_eqb in Hp as [E1 E2].
    unfold symlink_force, try_except. rewrite symlink_run. simpl.
    by rewrite E1, E2, Hl.
  - intros w1 H. unfold symlink_force, try_except. by rewrite H.
  - intros n. apply symlink_force_replace.
  - intros e w1 H He. unfold symlink_force, try_except. rewrite H.
    destruct e as [[]| | | | | |]; first [reflexivity | congruence].
  - intros t2 w1 H. apply symlink_force_ok in H as [Hp Hl].
    eexists. split.
    + eapply symlink_force_replace; eauto; congruence.
    + simpl. by rewrite lookup_insert_eq.
Qed.

Lemma symlink_force_contract_witness :
  let w := World {["m" := Dir]} [] in
  (exists w1 w2,
     symlink_force "a.pth" "m/latest.pth" w = (Ok tt, w1) /\
     symlink_force "b.pth" "m/latest.pth" w1 = (Ok tt, w2) /\
     fs w2 !! "m/latest.pth" = Some (Symlink "b.pth")) /\
  symlink_force "a.pth" "m/latest.pth" (World ∅ []) =
  (Raise (OSError ENOENT),
   World ∅ [Sys (SysSymlink "a.pth" "m/latest.pth")]).
Proof.
  intros w. split.
  - destruct (symlink_force_contract "a.pth" "m/latest.pth" w)
      as (Hnew & _ & _ & _ & Htwice).
    assert (Hp : parent_ok w "m/latest.pth")
      by (split; [discriminate | reflexivity]).
    assert (H1 := Hnew Hp eq_refl).
    destruct (Htwice "b.pth" _ H1) as (w2 & H2 & H3).
    eexists; exists w2. repeat split; eassumption.
  - destruct (symlink_force_contract "a.pth" "m/latest.pth" (World ∅ []))
      as (_ & _ & _ & Hother & _).
    apply Hother; [reflexivity | discriminate].
Defined.

(** ** The loop and its intermediate states *)

Section LoopFacts.
Context {S : Type}.
Variable body : Z -> S -> M (S * ctl).
Variables (s0 : S) (w0 : world).

Lemma epoch_ran_after k s w s' c w' :
  epoch_ran body s0 w0 k s w s' c w' ->
  after_epochs body (Datatypes.S k) s0 w0 = Some (s', c, w').
Proof. intros [H1 H2]. simpl. by rewrite H1, H2. Qed.

Lemma after_epochs_step k s w :
  after_epochs body k s0 w0 = Some (s, Next, w) ->
  after_epochs body (Datatypes.S k) s0 w0 =
    match body (Z.of_nat k) s w with
    | (Ok (s', c), w') => Some (s', c, w')
    | (Raise _, _) => None
    end.
Proof. intros H. simpl. by rewrite H. Qed.

Lemma after_epochs_S k s' c w' :
  after_epochs body (Datatypes.S k) s0 w0 = Some (s', c, w') ->
  exists s w, epoch_ran body s0 w0 k s w s' c w'.
Proof.
  simpl. destruct (after_epochs body k s0 w0) as [[[s []] w]|] eqn:E;
    try discriminate.
  destruct (body (Z.of_nat k) s w) as [[[s1 c1]|e] w1] eqn:Eb; try discriminate.
  intros H. inversion H; subst. exists s, w. by split.
Qed.

(** The states listed by [after_epochs] are those the loop goes through. *)
Lemma for_range_after n k s w :
  (k <= n)%nat ->
  after_epochs body k s0 w0 = Some (s, Next, w) ->
  for_range body n 0 s0 w0 = for_range body (n - k) (Z.of_nat k) s w.
Proof.
  revert s w. induction k as [|k IH]; intros s w Hk H.
  - simpl in H. inversion H; subst. by rewrite Nat.sub_0_r.
  - apply after_epochs_S in H as (s1 & w1 & H1 & H2).
    rewrite (IH s1 w1) by (auto; lia).
    replace (n - k)%nat with (Datatypes.S (n - Datatypes.S k)) by lia.
    simpl. rewrite bind_run, H2. simpl.
    by replace (Z.of_nat k + 1) with (Z.pos (Pos.of_succ_nat k)) by lia.
Qed.

Lemma for_range_done n s w :
  after_epochs body n s0 w0 = Some (s, Next, w) ->
  for_range body n 0 s0 w0 = (Ok s, w).
Proof.
  intros H. rewrite (for_range_after n n s w) by auto.
  by rewrite Nat.sub_diag.
Qed.

Lemma for_range_break n k s w :
  (k < n)%nat ->
  after_epochs body (Datatypes.S k) s0 w0 = Some (s, Break, w) ->
  for_range body n 0 s0 w0 = (Ok s, w).
Proof.
  intros Hk H. apply after_epochs_S in H as (s1 & w1 & H1 & H2).
  rewrite (for_range_after n k s1 w1) by (auto; lia).
  replace (n - k)%nat with (Datatypes.S (n - Datatypes.S k)) by lia.
  simpl. by rewrite bind_run, H2.
Qed.

(** Conversely, the locals and the world the loop ends with are those
    listed by [after_epochs] at the iteration that broke out, or after
    the last one. *)
Lemma for_range_from n k s1 w1 s w :
  after_epochs body k s0 w0 = Some (s1, Next, w1) ->
  for_range body n (Z.of_nat k) s1 w1 = (Ok s, w) ->
  exists j c,
    (k <= j <= k + n)%nat /\
    after_epochs body j s0 w0 = Some (s, c, w) /\
    (c = Break \/ j = (k + n)%nat).
Proof.
  revert k s1 w1. induction n as [|n IH]; intros k s1 w1 Hk H.
  - simpl in H. unfold pure in H. injection H as -> ->.
    exists k, Next. repeat split; auto; lia.
  - simpl in H. rewrite bind_run in H.
    destruct (body (Z.of_nat k) s1 w1) as [[[s2 c2]|e] w2] eqn:Eb;
      [|discriminate H].
    assert (Hk' : after_epochs body (Datatypes.S k) s0 w0 = Some (s2, c2, w2))
      by (simpl; by rewrite Hk, Eb).
    destruct c2; simpl in H.
    + replace (Z.of_nat k + 1) with (Z.of_nat (Datatypes.S k)) in H by lia.
      destruct (IH _ _ _ Hk' H) as (j & c & Hj & Ha & Hc).
      exists j, c. repeat split; auto; try lia.
      destruct Hc as [Hc|Hc]; [by left|right; lia].
    + unfold pure in H. injection H as -> ->.
      exists (Datatypes.S k), Break. repeat split; auto; lia.
Qed.

Lemma for_range_ok_inv n s w :
  for_range body n 0 s0 w0 = (Ok s, w) ->
  exists j c,
    (j <= n)%nat /\
    after_epochs body j s0 w0 = Some (s, c, w) /\
    (c = Break \/ j = n).
Proof.
  intros H. destruct (for_range_from n 0 s0 w0 s w eq_refl H)
    as (j & c & Hj & Ha & Hc).
  exists j, c. repeat split; auto; lia.
Qed.

(** A relation that every iteration respects holds between any two
    states of the run. *)
Lemma after_epochs_rel (R : S -> S -> Prop) :
  (forall s, R s s) ->
  (forall a b c, R a b -> R b c -> R a c) ->
  (forall e s w s' c w', body e s w = (Ok (s', c), w') -> R s s') ->
  forall i j si ci wi sj cj wj,
    (i <= j)%nat ->
    after_epochs body i s0 w0 = Some (si, ci, wi) ->
    after_epochs body j s0 w0 = Some (sj, cj, wj) ->
    R si sj.
Proof.
  intros Hrefl Htrans Hstep i j. induction j as [|j IH];
    intros si ci wi sj cj wj Hij Hi Hj.
  - assert (i = 0)%nat as -> by lia. rewrite Hi in Hj. inversion Hj; subst. auto.
  - destruct (decide (i = Datatypes.S j)) as [->|Hne].
    + rewrite Hi in Hj. inversion Hj; subst. auto.
    + apply after_epochs_S in Hj as (s & w & H1 & H2).
      eapply Htrans; [|eapply Hstep; eauto].
      eapply IH; eauto. lia.
Qed.

End LoopFacts.

(** ** Evaluating a scenario

    For [E : run = x] with a closed [run], the run is evaluated and
    only what [f] observes of its outcome is kept in [E]. *)
Lemma observed {A B} {o : option A} {x : A} (E : o = Some x) (f : A -> B)
    (v : B) :
  option_map f o = Some v -> f x = v.
Proof. subst o. intros H. by injection H. Qed.

Lemma outcome_ok {A} (p : result A * world) x w :
  p = (Ok x, w) -> outcome p = Some (x, w).
Proof. by intros ->. Qed.

Lemma outcome_raise {A} (p : result A * world) e w :
  p = (Raise e, w) -> outcome p = None.
Proof. by intros ->. Qed.

(** [E : run = None] with a run that gets somewhere. *)
Ltac not_none E :=
  apply (f_equal (fun o => match o with Some _ => true | None => false end))
    in E;
  vm_compute in E; discriminate E.

(** The goal [f x = v], for [E : run = Some x]. *)
Tactic Notation "observed_by" constr(E) uconstr(f) :=
  refine (observed E f _ _); vm_compute; reflexivity.

(** [H : f x = v], with [v] the value that the run gives. *)
Tactic Notation "observe" constr(E) constr(f) "as" ident(H) :=
  lazymatch type of E with
  | ?o = Some ?x =>
      let r := eval vm_compute in (option_map f o) in
      lazymatch r with
      | Some ?v =>
          assert (H : f x = v)
            by (refine (observed E f v _); vm_compute; reflexivity);
          cbn [fst snd] in H
      end
  end.

(** ** Inversion of successful runs of the primitives *)

Lemma invoke_ok {A} c (x : result A) w a w1 :
  invoke c x w = (Ok a, w1) ->
  x = Ok a /\ fs w1 = fs w /\ trace w1 = trace w ++ [Call c].
Proof.
  unfold invoke, bind, emit, lift. simpl. destruct x; intros H; inversion H; subst; auto.
Qed.

Lemma emit_ok e w u w1 :
  emit e w = (Ok u, w1) -> fs w1 = fs w /\ trace w1 = trace w ++ [e].
Proof. unfold emit. intros H. inversion H; subst. auto. Qed.

Lemma lift_ok {A} (x : result A) w a w1 :
  lift x w = (Ok a, w1) -> x = Ok a /\ w1 = w.
Proof. unfold lift. intros H. inversion H; subst. auto. Qed.

Lemma pure_ok {A} (x : A) w a w1 :
  pure x w = (Ok a, w1) -> a = x /\ w1 = w.
Proof. unfold pure. intros H. inversion H; subst. auto. Qed.

Lemma torch_save_ok p w u w1 :
  Os.torch_save p w = (Ok u, w1) -> trace w1 = trace w ++ [Sys (TorchSave p)].
Proof.
  unfold Os.torch_save, bind, emit, get_fs, put_fs, raise. cbn [fs trace].
  destruct (Os.follow Os.max_links (fs w) p) as [q|]; [|discriminate].
  destruct (fs w !! q) as [[]|]; try discriminate;
    destruct (String.eqb q ""); try discriminate;
    destruct (Os.isdir_at (fs w) (PyStr.dirname q)); try discriminate;
    intros H; inversion H; subst; reflexivity.
Qed.

Lemma makedirs_ok p w u w1 :
  Os.makedirs p w = (Ok u, w1) -> trace w1 = trace w ++ [Sys (SysMakedirs p)].
Proof.
  unfold Os.makedirs, bind, emit, get_fs, put_fs, lift. cbn [fs trace].
  destruct (Os.mkdirs (String.length p) (fs w) p); [|discriminate].
  intros H; inversion H; subst; reflexivity.
Qed.

Lemma exists_ok p w b w1 :
  Os.exists_ p w = (Ok b, w1) -> w1 = w.
Proof. unfold Os.exists_, bind, get_fs, pure. intros H. by inversion H. Qed.

Lemma symlink_force_trace t l w u w1 :
  symlink_force t l w = (Ok u, w1) ->
  exists retry, trace w1 = trace w ++ symlink_events retry t l.
Proof.
  destruct u. intros H.
  unfold symlink_force, try_except in H. rewrite symlink_run in H. simpl in H.
  destruct (String.eqb l "") eqn:El; [discriminate|].
  destruct (negb _) eqn:Ed; [discriminate|].
  destruct (fs w !! l) as [n|] eqn:En.
  - exists true. rewrite bind_run, remove_run in H. simpl in H. rewrite En in H.
    destruct n; try discriminate; rewrite symlink_run in H; simpl in H;
      rewrite El in H;
      destruct (negb (Os.isdir_at (delete l (fs w)) (PyStr.dirname l)));
      try discriminate;
      destruct (delete l (fs w) !! l); try discriminate;
      inversion H; subst; simpl; by rewrite <- ?app_assoc.
  - exists false. inversion H; subst. reflexivity.
Qed.

Tactic Notation "inv_bind" hyp(H) "as" ident(a) ident(w) ident(H1) :=
  let Hr := fresh "Hr" in
  apply bind_inv in H as [(a & w & H1 & H)|(? & H1 & Hr)];
  [|try discriminate Hr].

Lemma periodic_save_ok X d e n w u w' :
  periodic_save X d e n w = (Ok u, w') ->
  (exists mk retry, trace w' = trace w ++ periodic_events mk retry d e n) /\
  fs w' !! PyStr.join d "latest.pth" = Some (Symlink n).
Proof.
  intros H. unfold periodic_save in H.
  inv_bind H as u1 w1 H1. inv_bind H1 as present w2 H2.
  apply exists_ok in H2 as ->.
  inv_bind H as u3 w3 H3. apply invoke_ok in H3 as (_ & _ & Et3).
  inv_bind H as u4 w4 H4. apply torch_save_ok in H4 as Et4.
  destruct u. pose proof (symlink_force_ok _ _ _ _ H) as [_ Hl].
  apply symlink_force_trace in H as [retry Et5].
  split; [|done].
  destruct (negb present) eqn:Ex.
  - apply makedirs_ok in H1. exists true, retry.
    rewrite Et5, Et4, Et3, H1. unfold periodic_events. simpl.
    by rewrite <- !app_assoc.
  - apply pure_ok in H1 as [_ ->]. exists false, retry.
    rewrite Et5, Et4, Et3. unfold periodic_events. simpl.
    by rewrite <- !app_assoc.
Qed.

(** * Variant A: what one iteration does *)

Lemma adamw_body_ok X a nb e st w st' c w' :
  AdamW.epoch_body X a nb e st w = (Ok (st', c), w') ->
  exists losses tp, adamw_epoch_post X a e st w st' c w' losses tp.
Proof.
  intros H. unfold AdamW.epoch_body in H.
  inv_bind H as losses w1 H1. apply invoke_ok in H1 as (Hl & _ & Et1).
  inv_bind H as u2 w2 H2.
  assert (Et2 : trace w2 = trace w1 ++
                  [Print (MsgMeanLoss (Some (AdamW.early_stop_cnt st)))]).
  { destruct (nb =? 0); [discriminate|]. by apply emit_ok in H2 as [_ ?]. }
  clear H2. inv_bind H as st1 w3 H3.
  set (loss := fold_left fadd losses (float_of_int 0)) in *.
  assert (Hst1 :
    st1 = {| AdamW.early_stop_cnt :=
               if adamw_improves st loss then AdamW.early_stop_cnt st
               else AdamW.early_stop_cnt st + 1;
             AdamW.best_score :=
               if adamw_improves st loss then loss else AdamW.best_score st;
             AdamW.epoch_loss := loss |} /\
    trace w3 = trace w2 ++
      (if adamw_improves st loss then adamw_best_events a e loss else [])).
  { unfold adamw_improves. destruct (flt loss (AdamW.best_score st)).
    - inv_bind H3 as u4 w4 H4. apply emit_ok in H4 as [_ Et4].
      inv_bind H3 as u5 w5 H5. apply torch_save_ok in H5.
      apply pure_ok in H3 as [-> ->]. split; [done|].
      rewrite H5, Et4. unfold adamw_best_events. by rewrite <- app_assoc.
    - apply pure_ok in H3 as [-> ->]. split; [done|]. by rewrite app_nil_r. }
  clear H3. destruct Hst1 as [Hst1 Et3]. exists losses.
  unfold adamw_epoch_post. cbv zeta.
  change (fold_left fadd losses (float_of_int 0)) with loss.
  rewrite <- Hst1.
  destruct (AdamW.early_stop a <? AdamW.early_stop_cnt st1) eqn:Estop.
  - inv_bind H as u6 w6 H6. apply emit_ok in H6 as [_ Et6].
    apply pure_ok in H as [Hp ->]. inversion Hp; subst st' c.
    exists [Print MsgNoMoreBest]. rewrite Estop. repeat split; auto.
    rewrite Et6, Et3, Et2, Et1. by rewrite <- !app_assoc.
  - inv_bind H as r w6 H6. apply lift_ok in H6 as [Hr ->].
    inv_bind H as u7 w7 H7. apply pure_ok in H as [Hp ->].
    inversion Hp; subst st' c. rewrite Estop.
    destruct (r =? 0) eqn:Er.
    + apply periodic_save_ok in H7 as [(mk & retry & Et7) Hlatest].
      exists (periodic_events mk retry (AdamW.model_dir a) e (AdamW.pth_name X e)).
      repeat split; auto.
      * rewrite Et7, Et3, Et2, Et1. by rewrite <- !app_assoc.
      * exists r. rewrite Er. eauto.
    + apply pure_ok in H7 as [_ ->]. exists [].
      repeat split; auto.
      * rewrite Et3, Et2, Et1, app_nil_r. by rewrite <- !app_assoc.
      * exists r. by rewrite Er.
Qed.

(** * Variant B: what one iteration does *)

Lemma loader_body_ok X a nb e st w st' c w' :
  Loader.epoch_body X a nb e st w = (Ok (st', c), w') ->
  exists v tv tp, loader_epoch_post X a e st w st' c w' v tv tp.
Proof.
  intros H. unfold Loader.epoch_body in H.
  inv_bind H as u1 w1 H1. apply invoke_ok in H1 as (_ & _ & Et1).
  inv_bind H as u2 w2 H2.
  assert (Et2 : trace w2 = trace w1 ++
            [Print (MsgMeanLoss (if Loader.stop_cnt st =? 0 then None
                                 else Some (Loader.stop_cnt st)))]).
  { destruct (nb =? 0); [discriminate|].
    destruct (Loader.stop_cnt st =? 0); by apply emit_ok in H2 as [_ ?]. }
  clear H2. inv_bind H as v w3 H3. apply lift_ok in H3 as [Hv ->].
  inv_bind H as st1 w4 H4.
  assert (Hval : exists tv,
             loader_validation_post X a e st st1 v tv /\
             trace w4 = trace w2 ++ tv).
  { unfold loader_validation_post. destruct v.
    - inv_bind H4 as hmeans w5 H5. apply invoke_ok in H5 as (Hh & _ & Et5).
      destruct (match last hmeans with Some h => Some h | None => Loader.ret st end)
        as [f1|] eqn:Eret; [|discriminate].
      destruct (flt (Loader.best_score st) f1) eqn:Eimp.
      + inv_bind H4 as u6 w6 H6. apply emit_ok in H6 as [_ Et6].
        inv_bind H4 as u7 w7 H7. apply torch_save_ok in H7.
        inv_bind H4 as u8 w8 H8. apply symlink_force_trace in H8 as [retry Et8].
        apply pure_ok in H4 as [-> ->].
        exists (Call (CallValidate e) :: loader_best_events retry a e f1).
        split.
        * exists hmeans, f1. simpl. rewrite Eimp. repeat split; eauto.
        * rewrite Et8, H7, Et6, Et5. unfold loader_best_events. simpl.
          by rewrite <- !app_assoc.
      + apply pure_ok in H4 as [-> ->]. exists [Call (CallValidate e)]. split.
        * exists hmeans, f1. simpl. rewrite Eimp. repeat split; eauto.
        * done.
    - apply pure_ok in H4 as [-> ->]. exists []. by rewrite app_nil_r. }
  clear H4. destruct Hval as (tv & Hval & Et4).
  inv_bind H as r w5 H5. apply lift_ok in H5 as [Hr ->].
  inv_bind H as u6 w6 H6.
  assert (Hper : exists tp,
             (if r =? 0 then
                (exists mk retry,
                   tp = periodic_events mk retry (Loader.model_dir a) e
                          (Loader.pth_name X a e)) /\
                fs w6 !! PyStr.join (Loader.model_dir a) "latest.pth"
                  = Some (Symlink (Loader.pth_name X a e))
              else tp = []) /\
             trace w6 = trace w4 ++ tp).
  { destruct (r =? 0).
    - apply periodic_save_ok in H6 as [(mk & retry & Et6) Hlatest].
      exists (periodic_events mk retry (Loader.model_dir a) e
                (Loader.pth_name X a e)). eauto.
    - apply pure_ok in H6 as [_ ->]. exists []. by rewrite app_nil_r. }
  clear H6. destruct Hper as (tp & Hper & Et6).
  exists v, tv, tp. unfold loader_epoch_post.
  destruct (Loader.early_stop a <? Loader.stop_cnt st1) eqn:Estop.
  - inv_bind H as u7 w7 H7. apply emit_ok in H7 as [Ef Et7].
    apply pure_ok in H as [Hp ->]. inversion Hp; subst st' c.
    rewrite Estop, Ef. repeat split; eauto.
    rewrite Et7, Et6, Et4, Et2, Et1. by rewrite <- !app_assoc.
  - apply pure_ok in H as [Hp ->]. inversion Hp; subst st' c.
    rewrite Estop. repeat split; eauto.
    rewrite Et6, Et4, Et2, Et1, app_nil_r. by rewrite <- !app_assoc.
Qed.

(** * The runs of [do_training] *)

(** Once the set-up went through, [do_training] is the loop, entered
    with the initial locals in the world the set-up left; so the states
    [after_epochs] lists from there are those of the run, and the run
    ends in one of them. *)
Lemma adamw_do_training_run X a w nb w0 :
  AdamW.setup X a w = (Ok nb, w0) ->
  AdamW.do_training X a w =
  for_range (AdamW.epoch_body X a nb) (Z.to_nat (AdamW.max_epoch a)) 0
    AdamW.init w0.
Proof. intros H. unfold AdamW.do_training. by rewrite bind_run, H. Qed.

Lemma loader_do_training_run X a w nb w0 :
  Loader.setup X a w = (Ok nb, w0) ->
  Loader.do_training X a w =
  for_range (Loader.epoch_body X a nb) (Z.to_nat (Loader.max_epoch a)) 0
    Loader.init w0.
Proof. intros H. unfold Loader.do_training. by rewrite bind_run, H. Qed.

Lemma adamw_do_training_ends X a w nb w0 st w' :
  AdamW.setup X a w = (Ok nb, w0) ->
  AdamW.do_training X a w = (Ok st, w') ->
  exists k c,
    (k <= Z.to_nat (AdamW.max_epoch a))%nat /\
    after_epochs (AdamW.epoch_body X a nb) k AdamW.init w0 = Some (st, c, w') /\
    (c = Break \/ k = Z.to_nat (AdamW.max_epoch a)).
Proof.
  intros Hs H. rewrite (adamw_do_training_run _ _ _ _ _ Hs) in H.
  by apply for_range_ok_inv.
Qed.

Lemma loader_do_training_ends X a w nb w0 st w' :
  Loader.setup X a w = (Ok nb, w0) ->
  Loader.do_training X a w = (Ok st, w') ->
  exists k c,
    (k <= Z.to_nat (Loader.max_epoch a))%nat /\
    after_epochs (Loader.epoch_body X a nb) k Loader.init w0 = Some (st, c, w') /\
    (c = Break \/ k = Z.to_nat (Loader.max_epoch a)).
Proof.
  intros Hs H. rewrite (loader_do_training_run _ _ _ _ _ Hs) in H.
  by apply for_range_ok_inv.
Qed.

(** * Variant A: the stall counter and the best score *)

(** C3.  In Variant A the stall counter is never reset: an iteration
    leaves [early_stop_cnt] unchanged when the loss of the epoch beats
    the stored best score and adds exactly 1 otherwise, so the counter
    never decreases between two states of a run. *)
Theorem adamw_stall_counter_never_reset X a nb w0 :
  (forall k st w st' c w',
      epoch_ran (AdamW.epoch_body X a nb) AdamW.init w0 k st w st' c w' ->
      AdamW.early_stop_cnt st' =
      AdamW.early_stop_cnt st +
      (if adamw_improves st (AdamW.epoch_loss st') then 0 else 1)) /\
  (forall i j si ci wi sj cj wj,
      (i <= j)%nat ->
      after_epochs (AdamW.epoch_body X a nb) i AdamW.init w0 = Some (si, ci, wi) ->
      after_epochs (AdamW.epoch_body X a nb) j AdamW.init w0 = Some (sj, cj, wj) ->
      AdamW.early_stop_cnt si <= AdamW.early_stop_cnt sj).
Proof.
  assert (Hstep : forall e st w st' c w',
             AdamW.epoch_body X a nb e st w = (Ok (st', c), w') ->
             AdamW.early_stop_cnt st' =
             AdamW.early_stop_cnt st +
             (if adamw_improves st (AdamW.epoch_loss st') then 0 else 1)).
  { intros e st w st' c w' H.
    apply adamw_body_ok in H as (losses & tp & _ & -> & _). simpl.
    destruct (adamw_improves st _); lia. }
  split.
  - intros k st w st' c w' [_ H]. eauto.
  - apply (after_epochs_rel _ _ _
             (fun s s' => AdamW.early_stop_cnt s <= AdamW.early_stop_cnt s')).
    + intros; lia.
    + intros; lia.
    + intros e st w st' c w' H. rewrite (Hstep _ _ _ _ _ _ H).
      destruct (adamw_improves st _); lia.
Qed.

Lemma adamw_stall_counter_never_reset_witness :
  let body := AdamW.epoch_body rising_losses (adamw_args 3 1 201) 2 in
  match after_epochs body 1 AdamW.init fresh_world,
        after_epochs body 2 AdamW.init fresh_world,
        after_epochs body 3 AdamW.init fresh_world with
  | Some (s1, _, _), Some (s2, _, _), Some (s3, _, _) =>
      AdamW.early_stop_cnt s1 <= AdamW.early_stop_cnt s3 /\
      AdamW.early_stop_cnt s3 =
        AdamW.early_stop_cnt s2 +
        (if adamw_improves s2 (AdamW.epoch_loss s3) then 0 else 1) /\
      AdamW.early_stop_cnt s3 = 2
  | _, _, _ => False
  end.
Proof.
  intros body.
  destruct (adamw_stall_counter_never_reset rising_losses (adamw_args 3 1 201)
              2 fresh_world) as [Hstep Hmono].
  destruct (after_epochs body 1 AdamW.init fresh_world) as [[[s1 c1] w1]|] eqn:E1;
    [|not_none E1].
  destruct (after_epochs body 2 AdamW.init fresh_world) as [[[s2 c2] w2]|] eqn:E2;
    [|not_none E2].
  destruct (after_epochs body 3 AdamW.init fresh_world) as [[[s3 c3] w3]|] eqn:E3;
    [|not_none E3].
  split; [|split].
  - apply (Hmono 1%nat 3%nat s1 c1 w1 s3 c3 w3); [lia | exact E1 | exact E3].
  - destruct (after_epochs_S _ _ _ _ _ _ _ E3) as (s & w & Hran).
    pose proof Hran as [Hk _]. fold body in Hk. rewrite E2 in Hk.
    injection Hk as <- _ <-. exact (Hstep 2%nat _ _ _ _ _ Hran).
  - observed_by E3 (fun x => AdamW.early_stop_cnt (fst (fst x))).
Defined.

(** C5.  In Variant A [best_score] is non-increasing: an iteration
    replaces it by the accumulated loss of the epoch exactly when that
    loss is strictly below it, and on such an epoch the weights are
    saved under the fixed name [best_model.pth]; otherwise it is left
    as it was. *)
Theorem adamw_best_score_non_increasing X a nb w0 :
  (forall k st w st' c w',
      epoch_ran (AdamW.epoch_body X a nb) AdamW.init w0 k st w st' c w' ->
      exists losses,
        train_epoch X (Z.of_nat k) = Ok losses /\
        AdamW.epoch_loss st' = fold_left fadd losses (float_of_int 0) /\
        (flt (AdamW.epoch_loss st') (AdamW.best_score st) = true ->
         AdamW.best_score st' = AdamW.epoch_loss st' /\
         exists t,
           trace w' = trace w ++ t /\
           In (Sys (TorchSave (PyStr.join (AdamW.model_dir a) "best_model.pth"))) t) /\
        (flt (AdamW.epoch_loss st') (AdamW.best_score st) = false ->
         AdamW.best_score st' = AdamW.best_score st)) /\
  (forall i j si ci wi sj cj wj,
      (i <= j)%nat ->
      after_epochs (AdamW.epoch_body X a nb) i AdamW.init w0 = Some (si, ci, wi) ->
      after_epochs (AdamW.epoch_body X a nb) j AdamW.init w0 = Some (sj, cj, wj) ->
      fle (AdamW.best_score sj) (AdamW.best_score si)).
Proof.
  split.
  - intros k st w st' c w' [_ H].
    apply adamw_body_ok in H as (losses & tp & Hl & -> & _ & Ht & _).
    exists losses. cbn [AdamW.epoch_loss AdamW.best_score].
    unfold adamw_improves in *. repeat split; auto.
    + by rewrite H.
    + rewrite H in Ht.
      eexists. split; [exact Ht|]. unfold adamw_best_events.
      simpl. auto.
    + by intros ->.
  - apply (after_epochs_rel _ _ _
             (fun s s' => fle (AdamW.best_score s') (AdamW.best_score s))).
    + intros. apply fle_refl.
    + intros x y z H1 H2. eapply fle_trans; eauto.
    + intros e st w st' c w' H.
      apply adamw_body_ok in H as (losses & tp & _ & -> & _). simpl.
      unfold adamw_improves.
      destruct (flt _ (AdamW.best_score st)) eqn:E; [by left|by right].
Qed.

Lemma adamw_best_score_non_increasing_witness :
  let a := adamw_args 3 1 201 in
  let body := AdamW.epoch_body rising_losses a 2 in
  match after_epochs body 1 AdamW.init fresh_world,
        after_epochs body 3 AdamW.init fresh_world with
  | Some (s1, _, w1), Some (s3, _, _) =>
      fle (AdamW.best_score s3) (AdamW.best_score s1) /\
      AdamW.best_score s3 = float_of_int 2 /\
      (AdamW.best_score s1 = AdamW.epoch_loss s1 /\
       exists t,
         trace w1 = trace fresh_world ++ t /\
         In (Sys (TorchSave "trained_models/best_model.pth")) t)
  | _, _ => False
  end.
Proof.
  intros a body.
  destruct (adamw_best_score_non_increasing rising_losses a 2 fresh_world)
    as [Hstep Hmono].
  destruct (after_epochs body 1 AdamW.init fresh_world) as [[[s1 c1] w1]|] eqn:E1;
    [|not_none E1].
  destruct (after_epochs body 3 AdamW.init fresh_world) as [[[s3 c3] w3]|] eqn:E3;
    [|not_none E3].
  split; [|split].
  - apply (Hmono 1%nat 3%nat s1 c1 w1 s3 c3 w3); [lia | exact E1 | exact E3].
  - observed_by E3 (fun x => AdamW.best_score (fst (fst x))).
  - destruct (after_epochs_S _ _ _ _ _ _ _ E1) as (s & w & Hran).
    pose proof Hran as [Hk _]. simpl in Hk. injection Hk as <- <-.
    destruct (Hstep 0%nat _ _ _ _ _ Hran) as (losses & _ & _ & Himp & _).
    apply Himp.
    observed_by E1
      (fun x => flt (AdamW.epoch_loss (fst (fst x)))
                  (AdamW.best_score AdamW.init)).
Defined.

(** * Variant B: the stall counter, the best score and early stopping *)

Section LoopInvariant.
Context {S : Type}.
Variable body : Z -> S -> M (S * ctl).
Variables (s0 : S) (w0 : world).

(** A property of the locals that holds at loop entry and is kept by
    every iteration that goes on holds whenever an iteration starts. *)
Lemma after_epochs_inv (P : S -> Prop) :
  P s0 ->
  (forall e s w s' w', P s -> body e s w = (Ok (s', Next), w') -> P s') ->
  forall k s w, after_epochs body k s0 w0 = Some (s, Next, w) -> P s.
Proof.
  intros H0 Hstep k. induction k as [|k IH]; intros s w H.
  - simpl in H. by inversion H; subst.
  - apply after_epochs_S in H as (s1 & w1 & H1 & H2). eauto.
Qed.
End LoopInvariant.

Lemma loader_validation_epoch_iff a e :
  loader_validation_epoch a e <->
  Loader.use_val a = true /\ Loader.val_interval a <> 0 /\
  (e + 1) mod Loader.val_interval a = 0.
Proof.
  unfold loader_validation_epoch, Loader.validates, py_mod.
  destruct (Loader.use_val a).
  - destruct (Loader.val_interval a =? 0) eqn:E; simpl.
    + split; [discriminate|]. intros (_ & H & _). apply Z.eqb_eq in E. contradiction.
    + apply Z.eqb_neq in E. split.
      * intros H. inversion H as [H1]. apply Z.eqb_eq in H1. auto.
      * intros (_ & _ & H). by rewrite H.
  - split; [discriminate|]. intros (H & _). discriminate.
Qed.

Lemma loader_stop_cnt_nonneg X a nb w0 k st c w :
  after_epochs (Loader.epoch_body X a nb) k Loader.init w0 = Some (st, c, w) ->
  0 <= Loader.stop_cnt st.
Proof.
  intros H.
  eapply (after_epochs_rel (Loader.epoch_body X a nb) Loader.init w0
            (fun s s' => 0 <= Loader.stop_cnt s -> 0 <= Loader.stop_cnt s'))
    with (i := 0%nat) (j := k);
    [auto | auto | | lia | reflexivity | exact H | simpl; lia].
  intros e s w1 s' c' w' Hb Hs.
  apply loader_body_ok in Hb as (v & tv & tp & _ & Hval & _).
  unfold loader_validation_post in Hval. destruct v.
  - destruct Hval as (hm & f1 & _ & _ & _ & Hupd).
    destruct (flt (Loader.best_score s) f1);
      destruct Hupd as (_ & Hc & _); lia.
  - destruct Hval as [-> _]. exact Hs.
Qed.

(** C4.  In Variant B, on a validation epoch the F1 score is read off
    [ret]; when it strictly exceeds [best_score] it becomes the new
    [best_score] and [stop_cnt] is set to 0, otherwise [best_score] is
    kept and [stop_cnt] grows by exactly 1; [stop_cnt] is 0 after a
    validation epoch exactly when the epoch improved.  Hence
    [best_score] never decreases between two states of a run. *)
Theorem loader_best_score_and_stall_counter X a nb w0 :
  (forall k st w st' c w',
      epoch_ran (Loader.epoch_body X a nb) Loader.init w0 k st w st' c w' ->
      loader_validation_epoch a (Z.of_nat k) ->
      exists f1_score,
        Loader.ret st' = Some f1_score /\
        (flt (Loader.best_score st) f1_score = true ->
         Loader.best_score st' = f1_score /\ Loader.stop_cnt st' = 0) /\
        (flt (Loader.best_score st) f1_score = false ->
         Loader.best_score st' = Loader.best_score st /\
         Loader.stop_cnt st' = Loader.stop_cnt st + 1) /\
        (Loader.stop_cnt st' = 0 <-> flt (Loader.best_score st) f1_score = true)) /\
  (forall i j si ci wi sj cj wj,
      (i <= j)%nat ->
      after_epochs (Loader.epoch_body X a nb) i Loader.init w0 = Some (si, ci, wi) ->
      after_epochs (Loader.epoch_body X a nb) j Loader.init w0 = Some (sj, cj, wj) ->
      fle (Loader.best_score si) (Loader.best_score sj)).
Proof.
  split.
  - intros k st w st' c w' [Hk H] Hv.
    assert (Hpos : 0 <= Loader.stop_cnt st) by (eapply loader_stop_cnt_nonneg; eauto).
    apply loader_body_ok in H as (v & tv & tp & Hv' & Hval & _).
    unfold loader_validation_epoch in Hv. rewrite Hv in Hv'.
    inversion Hv'; subst v. unfold loader_validation_post in Hval.
    destruct Hval as (hm & f1 & _ & Hret & _ & Hupd).
    exists f1. split; [exact Hret|].
    destruct (flt (Loader.best_score st) f1);
      destruct Hupd as (Hb & Hc & _); repeat split;
      try discriminate; try tauto; try lia.
  - apply (after_epochs_rel _ _ _
             (fun s s' => fle (Loader.best_score s) (Loader.best_score s'))).
    + intros. apply fle_refl.
    + intros x y z H1 H2. eapply fle_trans; eauto.
    + intros e st w st' c w' H.
      apply loader_body_ok in H as (v & tv & tp & _ & Hval & _).
      unfold loader_validation_post in Hval. destruct v.
      * destruct Hval as (hm & f1 & _ & _ & _ & Hupd).
        destruct (flt (Loader.best_score st) f1) eqn:E;
          destruct Hupd as (Hb & _); rewrite Hb; [by left|by right].
      * destruct Hval as [-> _]. apply fle_refl.
Qed.

Lemma loader_best_score_and_stall_counter_witness :
  let a := loader_args 3 1 true 1 20 in
  let body := Loader.epoch_body falling_f1 a 2 in
  match after_epochs body 1 Loader.init fresh_world,
        after_epochs body 3 Loader.init fresh_world with
  | Some (s1, _, _), Some (s3, _, _) =>
      fle (Loader.best_score s1) (Loader.best_score s3) /\
      (Loader.stop_cnt s1 = 0 /\ Loader.stop_cnt s3 = 2) /\
      exists f1_score,
        Loader.ret s1 = Some f1_score /\
        (Loader.stop_cnt s1 = 0 <->
         flt (Loader.best_score Loader.init) f1_score = true)
  | _, _ => False
  end.
Proof.
  intros a body.
  destruct (loader_best_score_and_stall_counter falling_f1 a 2 fresh_world)
    as [Hstep Hmono].
  destruct (after_epochs body 1 Loader.init fresh_world) as [[[s1 c1] w1]|] eqn:E1;
    [|not_none E1].
  destruct (after_epochs body 3 Loader.init fresh_world) as [[[s3 c3] w3]|] eqn:E3;
    [|not_none E3].
  split; [|split].
  - apply (Hmono 1%nat 3%nat s1 c1 w1 s3 c3 w3); [lia | exact E1 | exact E3].
  - split.
    + observed_by E1 (fun x => Loader.stop_cnt (fst (fst x))).
    + observed_by E3 (fun x => Loader.stop_cnt (fst (fst x))).
  - destruct (after_epochs_S _ _ _ _ _ _ _ E1) as (s & w & Hran).
    pose proof Hran as [Hk _]. simpl in Hk. injection Hk as <- <-.
    destruct (Hstep 0%nat _ _ _ _ _ Hran eq_refl) as (f1 & Hret & _ & _ & Hiff).
    exists f1. split; [exact Hret | exact Hiff].
Defined.

(** While the loop of Variant B goes on, the stall counter has not
    passed the patience. *)
Lemma loader_stop_cnt_le_patience X a nb w0 k st w :
  0 <= Loader.early_stop a ->
  after_epochs (Loader.epoch_body X a nb) k Loader.init w0 = Some (st, Next, w) ->
  Loader.stop_cnt st <= Loader.early_stop a.
Proof.
  intros Hp.
  apply (after_epochs_inv (Loader.epoch_body X a nb) Loader.init w0
           (fun s => Loader.stop_cnt s <= Loader.early_stop a)).
  - simpl. lia.
  - intros e s w1 s' w' _ Hb.
    apply loader_body_ok in Hb as (v & tv & tp & _ & _ & _ & Hc & _).
    destruct (Loader.early_stop a <? Loader.stop_cnt s') eqn:E; [discriminate|].
    apply Z.ltb_ge in E. lia.
Qed.

(** C1, as it holds on the code.  With a patience that is not negative,
    the loop of Variant B leaves early only at the end of a validation
    epoch: if iteration [k] ends in [break] then validation is on and
    [(k + 1) % val_interval = 0].  (The test [stop_cnt > early_stop]
    itself is made at the end of every iteration, loader.py:202.) *)
Theorem loader_early_stop_only_on_validation_epoch X a nb w0 :
  0 <= Loader.early_stop a ->
  forall k st w st' w',
    epoch_ran (Loader.epoch_body X a nb) Loader.init w0 k st w st' Break w' ->
    Loader.use_val a = true /\
    (Z.of_nat k + 1) mod Loader.val_interval a = 0.
Proof.
  intros Hp k st w st' w' [Hk H].
  pose proof (loader_stop_cnt_le_patience _ _ _ _ _ _ _ Hp Hk) as Hle.
  apply loader_body_ok in H as (v & tv & tp & Hv & Hval & _ & Hc & _).
  destruct (Loader.early_stop a <? Loader.stop_cnt st') eqn:E; [|discriminate].
  apply Z.ltb_lt in E. unfold loader_validation_post in Hval. destruct v.
  - apply loader_validation_epoch_iff in Hv. tauto.
  - destruct Hval as [-> _]. lia.
Qed.

Lemma loader_early_stop_only_on_validation_epoch_witness :
  let a := loader_args 5 1 true 2 0 in
  let body := Loader.epoch_body falling_f1 a 2 in
  match after_epochs body 3 Loader.init fresh_world,
        body 3 (match after_epochs body 3 Loader.init fresh_world with
                | Some (s, _, _) => s
                | None => Loader.init
                end)
               (match after_epochs body 3 Loader.init fresh_world with
                | Some (_, _, w) => w
                | None => fresh_world
                end) with
  | Some (_, Next, _), (Ok (_, Break), _) =>
      Loader.use_val a = true /\ (3 + 1) mod Loader.val_interval a = 0
  | _, _ => False
  end.
Proof.
  intros a body.
  destruct (after_epochs body 3 Loader.init fresh_world) as [[[s c] w]|] eqn:E3;
    [|not_none E3].
  assert (c = Next) as -> by observed_by E3 (fun x => snd (fst x)).
  destruct (body 3 s w) as [[[s' c']|e] w'] eqn:Eb.
  - pose proof (epoch_ran_after body _ _ 3%nat _ _ _ _ _ (conj E3 Eb)) as E4.
    assert (c' = Break) as -> by observed_by E4 (fun x => snd (fst x)).
    apply (loader_early_stop_only_on_validation_epoch falling_f1 a 2 fresh_world
             ltac:(simpl; lia) 3%nat s w s' w').
    split; [exact E3 | exact Eb].
  - pose proof (after_epochs_step body _ _ 3%nat s w E3) as E4.
    change (Z.of_nat 3) with 3 in E4. rewrite Eb in E4. not_none E4.
Defined.

(** C1 as stated fails: with a negative patience the loop leaves at the
    end of the first epoch, which is not a validation epoch when
    [val_interval] is 2. *)
Lemma loader_early_stop_claim_counterexample :
  let a := loader_args 3 1 true 2 (-1) in
  Loader.use_val a = true /\
  (0 + 1) mod Loader.val_interval a <> 0 /\
  exists st' w',
    epoch_ran (Loader.epoch_body rising_losses a 2) Loader.init fresh_world
      0 Loader.init fresh_world st' Break w'.
Proof.
  intros a. split; [reflexivity|]. split; [discriminate|].
  destruct (Loader.epoch_body rising_losses a 2 0 Loader.init fresh_world)
    as [[[st' c]|e] w'] eqn:E.
  - assert (c = Break) as ->
      by observed_by (outcome_ok _ _ _ E) (fun x => snd (fst x)).
    exists st', w'. split; [reflexivity|exact E].
  - apply outcome_raise in E. not_none E.
Qed.

(** * The periodic checkpoint *)

Lemma string_app_cancel (d x y : string) :
  (d ++ x)%string = (d ++ y)%string -> x = y.
Proof. induction d as [|c d IH]; simpl; [auto|]. intros H. inversion H. auto. Qed.

Lemma join_best_latest d :
  PyStr.join d "best_model.pth" <> PyStr.join d "latest.pth".
Proof.
  unfold PyStr.join. simpl.
  destruct (String.eqb d "" || PyStr.endswith_sep d)%bool;
    intros H; apply string_app_cancel in H; discriminate H.
Qed.

Lemma symlink_events_other retry t t' d :
  ~ In (Sys (SysSymlink t' (PyStr.join d "latest.pth")))
      (symlink_events retry t (PyStr.join d "best_model.pth")).
Proof.
  unfold symlink_events. intros Hin.
  destruct retry; simpl in Hin;
    repeat (destruct Hin as [Hin|Hin]; try discriminate Hin);
    try contradiction;
    injection Hin as _ Hj; by apply join_best_latest in Hj.
Qed.

Lemma periodic_events_written mk retry d e n :
  periodic_checkpoint_written d n (periodic_events mk retry d e n).
Proof.
  unfold periodic_checkpoint_written, periodic_events, symlink_events.
  split; apply in_or_app; right; destruct retry; simpl; auto.
Qed.

Lemma py_mod_ok a b r :
  py_mod a b = Ok r -> b <> 0 /\ r = a mod b.
Proof.
  unfold py_mod. destruct (b =? 0) eqn:E; [discriminate|].
  apply Z.eqb_neq in E. intros H. inversion H. auto.
Qed.

(** X6.  Variant B: every completed iteration, whether it improved the
    best score or ended in [break], wrote the periodic checkpoint and
    pointed [latest.pth] at it if and only if
    [(e + 1) % save_interval = 0]. *)
Lemma loader_periodic_checkpoint X a nb e st w st' c w' :
  Loader.epoch_body X a nb e st w = (Ok (st', c), w') ->
  exists t,
    trace w' = trace w ++ t /\
    (periodic_checkpoint_written (Loader.model_dir a) (Loader.pth_name X a e) t
     <-> (e + 1) mod Loader.save_interval a = 0) /\
    ((e + 1) mod Loader.save_interval a = 0 ->
     fs w' !! PyStr.join (Loader.model_dir a) "latest.pth"
       = Some (Symlink (Loader.pth_name X a e))).
Proof.
  intros H.
  apply loader_body_ok in H as (v & tv & tp & _ & Hval & (r & Hr & Hper) & _ & Ht).
  apply py_mod_ok in Hr as [_ ->].
  eexists. split; [exact Ht|].
  destruct ((e + 1) mod Loader.save_interval a =? 0) eqn:Er.
  - apply Z.eqb_eq in Er. destruct Hper as [(mk & retry & ->) Hlatest].
    split; [|auto]. split; [auto|]. intros _.
    pose proof (periodic_events_written mk retry (Loader.model_dir a) e
                  (Loader.pth_name X a e)) as [H1 H2].
    split; apply in_or_app; right; apply in_or_app; right;
      apply in_or_app; left; assumption.
  - apply Z.eqb_neq in Er. subst tp. split; [|contradiction].
    split; [|contradiction]. intros [_ Hin]. exfalso.
    simpl in Hin. destruct Hin as [Hin|[Hin|Hin]]; try discriminate Hin.
    apply in_app_or in Hin as [Hin|Hin].
    + unfold loader_validation_post in Hval. destruct v.
      * destruct Hval as (hm & f1 & _ & _ & _ & Hupd).
        destruct (flt (Loader.best_score st) f1).
        -- destruct Hupd as (_ & _ & retry & ->).
           unfold loader_best_events in Hin.
           destruct Hin as [Hin|Hin]; [discriminate Hin|].
           apply in_app_or in Hin as [Hin|Hin].
           ++ simpl in Hin. destruct Hin as [Hin|[Hin|[]]]; discriminate Hin.
           ++ by apply symlink_events_other in Hin.
        -- destruct Hupd as (_ & _ & ->). simpl in Hin.
           destruct Hin as [Hin|[]]. discriminate Hin.
      * destruct Hval as [_ ->]. contradiction.
    + simpl in Hin. destruct (Loader.early_stop a <? Loader.stop_cnt st');
        simpl in Hin; [destruct Hin as [Hin|[]]; discriminate Hin|contradiction].
Qed.

(** X7.  Variant A: a completed iteration wrote the periodic
    checkpoint if and only if it did not end in [break] and
    [(e + 1) % save_interval = 0]: the early-stop test comes first
    (adamW.py:132-134). *)
Lemma adamw_periodic_checkpoint X a nb e st w st' c w' :
  AdamW.epoch_body X a nb e st w = (Ok (st', c), w') ->
  exists t,
    trace w' = trace w ++ t /\
    (periodic_checkpoint_written (AdamW.model_dir a) (AdamW.pth_name X e) t
     <-> c = Next /\ AdamW.save_interval a <> 0 /\
         (e + 1) mod AdamW.save_interval a = 0).
Proof.
  intros H.
  apply adamw_body_ok in H as (losses & tp & _ & _ & Hc & Ht & Htp).
  eexists. split; [exact Ht|].
  assert (Hpre : forall ev,
             In ev ([Call (CallTrainEpoch e);
                     Print (MsgMeanLoss (Some (AdamW.early_stop_cnt st)))] ++
                    (if adamw_improves st (fold_left fadd losses (float_of_int 0))
                     then adamw_best_events a e (fold_left fadd losses (float_of_int 0))
                     else []) ++ tp) ->
             (exists t l, ev = Sys (SysSymlink t l)) -> In ev tp).
  { intros ev Hin (t & l & ->). simpl in Hin.
    destruct Hin as [Hin|[Hin|Hin]]; try discriminate Hin.
    apply in_app_or in Hin as [Hin|Hin]; [|exact Hin].
    destruct (adamw_improves st _); simpl in Hin;
      repeat (destruct Hin as [Hin|Hin]; try discriminate Hin); contradiction. }
  destruct (AdamW.early_stop a <? AdamW.early_stop_cnt st') eqn:Estop.
  - subst tp c. split.
    + intros [_ Hin]. apply Hpre in Hin; [|eauto].
      destruct Hin as [Hin|[]]. discriminate Hin.
    + intros [Hn _]. discriminate Hn.
  - destruct Htp as (r & Hr & Hper). apply py_mod_ok in Hr as [Hne ->].
    destruct ((e + 1) mod AdamW.save_interval a =? 0) eqn:Er.
    + apply Z.eqb_eq in Er. destruct Hper as [(mk & retry & ->) _].
      split; [auto|]. intros _.
      pose proof (periodic_events_written mk retry (AdamW.model_dir a) e
                    (AdamW.pth_name X e)) as [H1 H2].
      split; apply in_or_app; right; apply in_or_app; right; assumption.
    + apply Z.eqb_neq in Er. subst tp. split; [|tauto].
      intros [_ Hin]. apply Hpre in Hin; [contradiction|eauto].
Qed.

(** C2 at the failing input: Variant A with losses 2.0, 3.0, 4.0,
    [save_interval = 1] and [early_stop = 1].  The third epoch (index 2)
    is a periodic-save epoch, but it ends in [break] before the save:
    its only events are the training pass and two printed lines, no
    checkpoint is written for it and [latest.pth] still points at the
    checkpoint of the second epoch. *)
Theorem adamw_early_stop_skips_periodic_save :
  let a := adamw_args 3 1 1 in
  let body := AdamW.epoch_body rising_losses a 2 in
  let w0 := snd (AdamW.setup rising_losses a fresh_world) in
  exists st w st' w',
    epoch_ran body AdamW.init w0 2 st w st' Break w' /\
    AdamW.do_training rising_losses a fresh_world = (Ok st', w') /\
    (2 + 1) mod AdamW.save_interval a = 0 /\
    trace w' = trace w ++ [Call (CallTrainEpoch 2);
                           Print (MsgMeanLoss (Some 1));
                           Print MsgNoMoreBest] /\
    ~ periodic_checkpoint_written (AdamW.model_dir a)
        (AdamW.pth_name rising_losses 2)
        [Call (CallTrainEpoch 2); Print (MsgMeanLoss (Some 1));
         Print MsgNoMoreBest] /\
    fs w' !! "trained_models/latest.pth"
      = Some (Symlink (AdamW.pth_name rising_losses 1)).
Proof.
  intros a body w0.
  destruct (after_epochs body 2 AdamW.init w0) as [[[st c] w]|] eqn:E2;
    [|not_none E2].
  assert (c = Next) as -> by observed_by E2 (fun x => snd (fst x)).
  destruct (body 2 st w) as [[[st' c']|e] w'] eqn:Eb.
  - pose proof (epoch_ran_after body _ _ 2%nat _ _ _ _ _ (conj E2 Eb)) as E3.
    assert (c' = Break) as -> by observed_by E3 (fun x => snd (fst x)).
    exists st, w, st', w'. split; [split; [exact E2|exact Eb]|].
    split.
    { unfold AdamW.do_training. rewrite bind_run.
      assert (Hs : AdamW.setup rising_losses a fresh_world = (Ok 2, w0))
        by (vm_compute; reflexivity).
      rewrite Hs.
      apply (for_range_break body AdamW.init w0 3 2); [lia | exact E3]. }
    split; [reflexivity|]. split.
    { observe E2 (fun x : AdamW.locals * ctl * world => trace (snd x)) as H2.
      observe E3 (fun x : AdamW.locals * ctl * world => trace (snd x)) as H3.
      rewrite H2, H3. reflexivity. }
    split.
    { intros [Hin _]. simpl in Hin.
      repeat (destruct Hin as [Hin|Hin]; try discriminate Hin). contradiction. }
    observed_by E3 (fun x => fs (snd x) !! "trained_models/latest.pth").
  - pose proof (after_epochs_step body _ _ 2%nat st w E2) as E3.
    change (Z.of_nat 2) with 2 in E3. rewrite Eb in E3. not_none E3.
Qed.

(** * [str2bool] *)

Lemma mem_In x l : PyStr.mem x l = true <-> In x l.
Proof.
  unfold PyStr.mem. rewrite existsb_exists. split.
  - intros (y & Hy & E). apply String.eqb_eq in E. by subst.
  - intros H. exists x. split; [done|]. apply String.eqb_refl.
Qed.

Lemma mem_not_In x l : PyStr.mem x l = false <-> ~ In x l.
Proof.
  rewrite <- mem_In. destruct (PyStr.mem x l); split; congruence.
Qed.

Lemma truthy_not_falsy x : In x truthy -> ~ In x falsy.
Proof.
  unfold truthy, falsy. simpl. intros H1 H2.
  repeat (destruct H1 as [H1|H1]; [subst x|]);
    try contradiction;
    repeat (destruct H2 as [H2|H2]; [discriminate H2|]); contradiction.
Qed.

(** C10.  [str2bool] returns a bool unchanged; on a string it looks at
    the lower-cased text only: it returns [True] exactly for "yes",
    "true", "t", "y", "1", [False] exactly for "no", "false", "f", "n",
    "0", and for every other string it returns nothing and raises (a
    [NameError], the name [argparse] being unbound in the module). *)
Theorem str2bool_contract :
  (forall b, Loader.str2bool (VBool b) = Ok b) /\
  (forall s, Loader.str2bool (VStr s) = Ok true <-> In (PyStr.lower s) truthy) /\
  (forall s, Loader.str2bool (VStr s) = Ok false <-> In (PyStr.lower s) falsy) /\
  (forall s, ~ In (PyStr.lower s) (truthy ++ falsy) ->
             Loader.str2bool (VStr s) = Raise (NameError "argparse")) /\
  (forall s s', PyStr.lower s = PyStr.lower s' ->
                Loader.str2bool (VStr s) = Loader.str2bool (VStr s')).
Proof.
  split; [reflexivity|].
  assert (Hcases : forall s,
    (In (PyStr.lower s) truthy /\ Loader.str2bool (VStr s) = Ok true) \/
    (In (PyStr.lower s) falsy /\ Loader.str2bool (VStr s) = Ok false) \/
    (~ In (PyStr.lower s) truthy /\ ~ In (PyStr.lower s) falsy /\
     Loader.str2bool (VStr s) = Raise (NameError "argparse"))).
  { intros s. unfold Loader.str2bool. fold truthy. fold falsy.
    destruct (PyStr.mem (PyStr.lower s) truthy) eqn:E1.
    - left. by apply mem_In in E1.
    - apply mem_not_In in E1.
      destruct (PyStr.mem (PyStr.lower s) falsy) eqn:E2.
      + right; left. by apply mem_In in E2.
      + apply mem_not_In in E2. right; right. auto. }
  repeat split.
  - intros H. destruct (Hcases s) as [[? _]|[[_ E]|(_ & _ & E)]]; [done|congruence..].
  - intros H. destruct (Hcases s) as [[_ E]|[[H' _]|(H' & _)]]; [done|..].
    + by apply truthy_not_falsy in H.
    + contradiction.
  - intros H. destruct (Hcases s) as [[_ E]|[[? _]|(_ & _ & E)]]; [congruence|done|congruence].
  - intros H. destruct (Hcases s) as [[H' _]|[[_ E]|(_ & H' & _)]]; [|done|contradiction].
    by apply truthy_not_falsy in H'.
  - intros s H. destruct (Hcases s) as [[H' _]|[[H' _]|(_ & _ & E)]]; [..|done];
      exfalso; apply H, in_or_app; auto.
  - intros s s' H. unfold Loader.str2bool. by rewrite H.
Qed.

Lemma str2bool_contract_witness :
  Loader.str2bool (VStr "YeS") = Ok true /\
  Loader.str2bool (VStr "False") = Ok false /\
  Loader.str2bool (VStr "maybe") = Raise (NameError "argparse").
Proof.
  destruct str2bool_contract as (_ & Ht & Hf & Hother & _).
  split; [|split].
  - apply Ht. simpl. auto.
  - apply Hf. simpl. auto.
  - apply Hother. simpl. intros H.
    repeat (destruct H as [H|H]; [discriminate H|]). exact H.
Defined.

(** * [parse_args] *)

Lemma isfile_run p w : Os.isfile p w = (Ok (isfile_at w p), w).
Proof. reflexivity. Qed.

Lemma isfile_at_absent w p : fs w !! p = None -> isfile_at w p = false.
Proof.
  intros H. unfold isfile_at, Os.stat, Os.max_links. simpl. by rewrite H, H.
Qed.

Lemma get_value_not_value_error {A} (f : string -> result A) raw :
  not_value_error (Argparse.get_value f raw).
Proof.
  intros msg. unfold Argparse.get_value.
  destruct (f raw) as [x|[]]; discriminate.
Qed.

Lemma checker_not_value_error {A} (f : string -> result A) raw :
  not_value_error (Argparse.checker f raw).
Proof.
  intros msg. unfold Argparse.checker, Argparse.void.
  pose proof (get_value_not_value_error f raw msg) as H.
  destruct (Argparse.get_value f raw); congruence.
Qed.

Lemma arg_not_value_error {A} argv flag (f : string -> result A) d :
  not_value_error (Argparse.arg argv flag f d).
Proof.
  intros msg. unfold Argparse.arg.
  destruct (Argparse.find flag (rev argv)); [|discriminate].
  apply get_value_not_value_error.
Qed.

Lemma scan_not_value_error p argv extras :
  (forall flag chk raw, Argparse.find flag p = Some chk ->
                        not_value_error (chk raw)) ->
  not_value_error (Argparse.scan p argv extras).
Proof.
  intros Hp. revert extras.
  induction argv as [|[flag raw] argv IH]; intros extras msg; simpl.
  - destruct extras; discriminate.
  - destruct (Argparse.find flag p) as [chk|] eqn:E; [|apply IH].
    pose proof (Hp flag chk raw E msg) as H.
    destruct (chk raw); [apply IH|congruence].
Qed.

Ltac find_cases H :=
  simpl in H;
  repeat match type of H with
    | (if ?b then _ else _) = _ => destruct b
    | Some _ = Some _ => inversion H; subst; clear H
    | None = Some _ => discriminate H
    end.

Lemma adamw_parser_not_value_error E flag chk raw :
  Argparse.find flag (AdamW.parser E) = Some chk -> not_value_error (chk raw).
Proof.
  intros H. unfold AdamW.parser in H. find_cases H;
    apply checker_not_value_error.
Qed.

Lemma loader_parser_not_value_error E flag chk raw :
  Argparse.find flag (Loader.parser E) = Some chk -> not_value_error (chk raw).
Proof.
  intros H. unfold Loader.parser in H. find_cases H;
    apply checker_not_value_error.
Qed.

Ltac parse_cases :=
  repeat match goal with
    | |- context [Argparse.rbind ?r _] =>
        let E := fresh "E" in
        destruct r eqn:E; simpl;
        [|intros ?msg ?Hm; inversion Hm; subst;
          first [ eapply arg_not_value_error; eassumption
                | eapply scan_not_value_error; [|eassumption];
                  first [ apply adamw_parser_not_value_error
                        | apply loader_parser_not_value_error ] ] ]
    end.

Lemma adamw_parse_not_value_error E argv :
  not_value_error (AdamW.parse E argv).
Proof. unfold AdamW.parse. parse_cases. discriminate. Qed.

Lemma loader_parse_not_value_error E argv :
  not_value_error (Loader.parse E argv).
Proof. unfold Loader.parse. parse_cases. discriminate. Qed.

Lemma adamw_parse_args_run E argv w :
  AdamW.parse_args E argv w =
  match AdamW.parse E argv with
  | Ok args =>
      if AdamW.input_size args mod 32 =? 0 then (Ok args, w)
      else (Raise input_size_error, w)
  | Raise e => (Raise e, w)
  end.
Proof.
  unfold AdamW.parse_args, bind, lift, py_mod. simpl.
  destruct (AdamW.parse E argv) as [args|e]; [|reflexivity].
  by destruct (AdamW.input_size args mod 32 =? 0).
Qed.

Lemma loader_parse_args_run E argv w :
  Loader.parse_args E argv w =
  match Loader.parse E argv with
  | Ok args =>
      if Loader.input_size args mod 32 =? 0 then
        if (Loader.use_val args && negb (isfile_at w (Loader.val_json args)))%bool
        then (Ok (Loader.set_use_val false args),
              World (fs w) (trace w ++ [Print MsgValNotFound; Print MsgForceReset]))
        else (Ok args, w)
      else (Raise input_size_error, w)
  | Raise e => (Raise e, w)
  end.
Proof.
  unfold Loader.parse_args, Os.isfile, isfile_at.
  unfold bind, lift, py_mod, get_fs, pure, emit, raise.
  cbn [Z.eqb fs trace].
  destruct (Loader.parse E argv) as [args|e]; [|reflexivity].
  destruct (Loader.input_size args mod 32 =? 0); [|reflexivity].
  cbn [negb andb].
  destruct (Loader.use_val args); cbn [negb andb]; [|reflexivity].
  destruct (Os.stat (fs w) (Loader.val_json args)) as [[]|];
    cbn [negb andb fs trace]; try reflexivity; by rewrite <- app_assoc.
Qed.

(** C6.  In both variants, once the library has parsed the command
    line, [parse_args] fails with the [ValueError] of the size check
    exactly when [input_size % 32 != 0], and returns the configuration
    for every [input_size] that is a multiple of 32; it raises a
    [ValueError] in no other case. *)
Theorem parse_args_input_size E argv w :
  (forall args,
      AdamW.parse E argv = Ok args ->
      (AdamW.input_size args mod 32 <> 0 ->
       AdamW.parse_args E argv w = (Raise input_size_error, w)) /\
      (AdamW.input_size args mod 32 = 0 ->
       AdamW.parse_args E argv w = (Ok args, w))) /\
  (forall args,
      Loader.parse E argv = Ok args ->
      (Loader.input_size args mod 32 <> 0 ->
       Loader.parse_args E argv w = (Raise input_size_error, w)) /\
      (Loader.input_size args mod 32 = 0 ->
       exists args' w',
         Loader.parse_args E argv w = (Ok args', w') /\
         (args' = args \/ args' = Loader.set_use_val false args))) /\
  (forall msg w',
      AdamW.parse_args E argv w = (Raise (ValueError msg), w') ->
      exists args,
        AdamW.parse E argv = Ok args /\ AdamW.input_size args mod 32 <> 0) /\
  (forall msg w',
      Loader.parse_args E argv w = (Raise (ValueError msg), w') ->
      exists args,
        Loader.parse E argv = Ok args /\ Loader.input_size args mod 32 <> 0).
Proof.
  rewrite adamw_parse_args_run, loader_parse_args_run.
  split; [|split; [|split]].
  - intros args Hp. rewrite Hp. split; intros H.
    + apply Z.eqb_neq in H. by rewrite H.
    + apply Z.eqb_eq in H. by rewrite H.
  - intros args Hp. rewrite Hp. split; intros H.
    + apply Z.eqb_neq in H. by rewrite H.
    + apply Z.eqb_eq in H. rewrite H.
      destruct (_ && _)%bool; eauto.
  - intros msg w' H.
    pose proof (adamw_parse_not_value_error E argv msg) as Hn.
    destruct (AdamW.parse E argv) as [args|e].
    + exists args. split; [done|].
      destruct (AdamW.input_size args mod 32 =? 0) eqn:Em; [discriminate|].
      by apply Z.eqb_neq.
    + inversion H; subst. contradiction.
  - intros msg w' H.
    pose proof (loader_parse_not_value_error E argv msg) as Hn.
    destruct (Loader.parse E argv) as [args|e].
    + exists args. split; [done|].
      destruct (Loader.input_size args mod 32 =? 0) eqn:Em.
      * destruct (_ && _)%bool; discriminate.
      * by apply Z.eqb_neq.
    + inversion H; subst. contradiction.
Qed.

Lemma parse_args_input_size_witness :
  AdamW.parse_args plain_env [] fresh_world
    = (Ok (adamw_args 200 5 201), fresh_world) /\
  AdamW.parse_args plain_env [("--input_size", "100")] fresh_world
    = (Raise input_size_error, fresh_world) /\
  Loader.parse_args plain_env [("--input_size", "100")] fresh_world
    = (Raise input_size_error, fresh_world).
Proof.
  split; [|split].
  - destruct (parse_args_input_size plain_env [] fresh_world) as (HA & _).
    apply (HA (adamw_args 200 5 201)); reflexivity.
  - destruct (parse_args_input_size plain_env [("--input_size", "100")]
                fresh_world) as (HA & _).
    destruct (AdamW.parse plain_env [("--input_size", "100")]) as [args|e] eqn:E;
      [|vm_compute in E; discriminate E].
    apply (HA args eq_refl).
    vm_compute in E. inversion E. discriminate.
  - destruct (parse_args_input_size plain_env [("--input_size", "100")]
                fresh_world) as (_ & HB & _).
    destruct (Loader.parse plain_env [("--input_size", "100")]) as [args|e] eqn:E;
      [|vm_compute in E; discriminate E].
    apply (HB args eq_refl).
    vm_compute in E. inversion E. discriminate.
Defined.

(** C7.  In Variant B, once the command line is parsed and the size
    check passed: when validation is requested and
    [data_dir/ufo/val.json] is not there (more generally, is not a
    file), [parse_args] does not fail, prints the two warning lines and
    returns a configuration whose [use_val] is [False] and whose other
    attributes are those that were parsed; when the file is there, and
    also when validation was not requested, it returns the parsed
    configuration, [use_val] included, and prints nothing. *)
Theorem loader_parse_args_use_val E argv w args :
  Loader.parse E argv = Ok args ->
  Loader.input_size args mod 32 = 0 ->
  let downgraded :=
    exists args',
      Loader.parse_args E argv w
        = (Ok args',
           World (fs w)
             (trace w ++ [Print MsgValNotFound; Print MsgForceReset])) /\
      Loader.use_val args' = false /\
      agree_but_use_val args args' in
  (Loader.use_val args = true -> fs w !! Loader.val_json args = None ->
   downgraded) /\
  (Loader.use_val args = true -> isfile_at w (Loader.val_json args) = false ->
   downgraded) /\
  (isfile_at w (Loader.val_json args) = true ->
   Loader.parse_args E argv w = (Ok args, w)) /\
  (Loader.use_val args = false ->
   Loader.parse_args E argv w = (Ok args, w)).
Proof.
  intros Hp Hm downgraded.
  assert (Hdown : Loader.use_val args = true ->
                  isfile_at w (Loader.val_json args) = false -> downgraded).
  { intros Hu Hf. exists (Loader.set_use_val false args).
    rewrite loader_parse_args_run, Hp.
    apply Z.eqb_eq in Hm. rewrite Hm, Hu, Hf.
    split; [reflexivity|]. split; [reflexivity|].
    unfold agree_but_use_val. by repeat split. }
  repeat split.
  - intros Hu Hf. apply Hdown; [done|]. by apply isfile_at_absent.
  - exact Hdown.
  - intros Hf. rewrite loader_parse_args_run, Hp.
    apply Z.eqb_eq in Hm. rewrite Hm, Hf. by rewrite andb_false_r.
  - intros Hu. rewrite loader_parse_args_run, Hp.
    apply Z.eqb_eq in Hm. by rewrite Hm, Hu.
Qed.

Lemma loader_parse_args_use_val_witness :
  Loader.parse_args plain_env [] fresh_world
    = (Ok (loader_args 200 5 false 1 20),
       World (fs fresh_world) [Print MsgValNotFound; Print MsgForceReset]) /\
  Loader.parse_args plain_env [] world_with_val_json
    = (Ok (loader_args 200 5 true 1 20), world_with_val_json).
Proof.
  split.
  - destruct (loader_parse_args_use_val plain_env [] fresh_world
                (loader_args 200 5 true 1 20) eq_refl eq_refl)
      as (Habsent & _).
    destruct (Habsent eq_refl eq_refl) as (args' & Hrun & Hu & Hsame).
    rewrite Hrun. destruct args'. unfold agree_but_use_val in Hsame.
    cbn in Hu, Hsame.
    destruct Hsame as (-> & -> & -> & -> & -> & -> & -> & -> & -> & -> & ->
                       & -> & -> & ->).
    rewrite Hu. reflexivity.
  - destruct (loader_parse_args_use_val plain_env [] world_with_val_json
                (loader_args 200 5 true 1 20) eq_refl eq_refl)
      as (_ & _ & Hthere & _).
    apply Hthere. reflexivity.
Defined.

(** * Variant B: the validation data set *)

Lemma invoke_run {A} c (r : result A) w :
  invoke c r w = (r, World (fs w) (trace w ++ [Call c])).
Proof. reflexivity. Qed.

Lemma appends_for_range {S} (body : Z -> S -> M (S * ctl)) n :
  (forall e s, appends (body e s)) ->
  forall e s, appends (for_range body n e s).
Proof.
  intros Hb. induction n as [|n IH]; intros e s; simpl.
  - apply appends_pure.
  - apply appends_bind; [apply Hb|]. intros [s' []]; simpl;
      [apply IH|apply appends_pure].
Qed.

Lemma appends_loader_body X a nb e st : appends (Loader.epoch_body X a nb e st).
Proof. unfold Loader.epoch_body. appends_tac. Qed.

Lemma appends_adamw_body X a nb e st : appends (AdamW.epoch_body X a nb e st).
Proof. unfold AdamW.epoch_body. appends_tac. Qed.

Lemma loader_setup_inv X a w n n' r w1 :
  seed_everything X (Loader.seed a) = Ok tt ->
  scene_text_dataset X (Loader.data_dir a) Train (Loader.image_size a)
    (Loader.input_size a) = Ok n ->
  east_dataset X n = Ok n' ->
  Loader.batch_size a <> 0 ->
  data_loader X Train = Ok tt ->
  Loader.setup X a w = (r, w1) ->
  exists t,
    trace w1 = trace w ++ loader_setup_calls a ++ t /\
    (forall e,
        scene_text_dataset X (Loader.data_dir a) Val (Loader.image_size a)
          (Loader.input_size a) = Raise e ->
        r = Raise e /\ t = []) /\
    (forall m,
        scene_text_dataset X (Loader.data_dir a) Val (Loader.image_size a)
          (Loader.input_size a) = Ok m ->
        exists t',
          t = Call (CallDataLoader Val) :: t' /\
          (forall e, data_loader X Val = Raise e -> r = Raise e /\ t' = [])).
Proof.
  intros Hseed Htrain Heast Hbatch Hloader H. unfold Loader.setup in H.
  apply bind_inv in H as [(u1 & w2 & Ha & H)|(e & Ha & _)];
    rewrite invoke_run in Ha; injection Ha as Ea Wa; subst; [|congruence].
  apply bind_inv in H as [(n1 & w3 & Hb & H)|(e & Hb & _)];
    rewrite invoke_run in Hb; injection Hb as Eb Wb; subst; [|congruence].
  assert (n1 = n) as -> by congruence.
  apply bind_inv in H as [(n2 & w4 & Hc & H)|(e & Hc & _)];
    rewrite invoke_run in Hc; injection Hc as Ec Wc; subst; [|congruence].
  assert (n2 = n') as -> by congruence.
  apply Z.eqb_neq in Hbatch.
  apply bind_inv in H as [(nb & w5 & Hd & H)|(e & Hd & _)];
    unfold lift, ceil_div in Hd; rewrite Hbatch in Hd;
    injection Hd as Ed Wd; subst; [|discriminate].
  apply bind_inv in H as [(u5 & w6 & He & H)|(e & He & _)];
    rewrite invoke_run in He; injection He as Ee We; subst; [|congruence].
  apply bind_inv in H as [(m & w7 & Hf & H)|(e & Hf & ->)];
    rewrite invoke_run in Hf; injection Hf as Ef Wf; subst.
  - apply bind_inv in H as [(vb & w8 & Hg & H)|(e & Hg & _)];
      unfold lift, ceil_div in Hg; rewrite Hbatch in Hg;
      injection Hg as Eg Wg; subst; [|discriminate].
    apply bind_inv in H as [(u8 & w9 & Hh & H)|(e & Hh & ->)];
      rewrite invoke_run in Hh; injection Hh as Eh Wh; subst.
    + assert (Hrest : forall nb : Z, appends
        (invoke CallBuildModel (build_model X);; pure nb))
        by (intros; appends_tac).
      apply Hrest in H as [t Ht].
      exists (Call (CallDataLoader Val) :: t). split; [|split].
      * rewrite Ht. unfold loader_setup_calls. cbn [fs trace].
        rewrite <- !app_assoc. reflexivity.
      * intros e He. congruence.
      * intros m' _. exists t. split; [reflexivity|].
        intros e He. congruence.
    + exists [Call (CallDataLoader Val)]. split; [|split].
      * unfold loader_setup_calls. cbn [fs trace].
        rewrite <- !app_assoc. reflexivity.
      * intros e' He. congruence.
      * intros m' _. exists []. split; [reflexivity|].
        intros e' He. split; congruence.
  - exists []. split; [|split].
    + unfold loader_setup_calls. cbn [fs trace].
      by rewrite <- !app_assoc.
    + intros e' He. split; congruence.
    + intros m He. congruence.
Qed.

(** C9.  In Variant B, whatever the value of [use_val] (set on the
    command line or forced to [False] by [parse_args]), a run whose
    training data pipeline is built goes on to call
    [SceneTextDataset(data_dir, split='val', ...)]; if that call raises,
    the run ends there with the same exception; if it returns, the next
    call is [DataLoader(val_dataset, ...)], and if that one raises the
    run ends there with its exception.  Both calls come before
    everything else the run does, the epoch loop included. *)
Theorem loader_validation_dataset_unconditional X a b w n n' :
  let a' := Loader.set_use_val b a in
  let val_dataset :=
    scene_text_dataset X (Loader.data_dir a) Val (Loader.image_size a)
      (Loader.input_size a) in
  seed_everything X (Loader.seed a) = Ok tt ->
  scene_text_dataset X (Loader.data_dir a) Train (Loader.image_size a)
    (Loader.input_size a) = Ok n ->
  east_dataset X n = Ok n' ->
  Loader.batch_size a <> 0 ->
  data_loader X Train = Ok tt ->
  exists r w' t,
    Loader.do_training X a' w = (r, w') /\
    trace w' = trace w ++ loader_setup_calls a ++ t /\
    (forall e, val_dataset = Raise e -> r = Raise e /\ t = []) /\
    (forall m, val_dataset = Ok m ->
       exists t',
         t = Call (CallDataLoader Val) :: t' /\
         (forall e, data_loader X Val = Raise e -> r = Raise e /\ t' = [])).
Proof.
  intros a' val_dataset Hseed Htrain Heast Hbatch Hloader.
  destruct (Loader.do_training X a' w) as [r w'] eqn:H. exists r, w'.
  unfold Loader.do_training in H.
  apply bind_inv in H as [(nb & w1 & Hs & Hloop)|(e & Hs & ->)].
  - apply (loader_setup_inv X a' w n n' _ _ Hseed Htrain Heast Hbatch Hloader)
      in Hs as (t & Ht & Hval & Hld).
    apply appends_for_range in Hloop as [t2 Ht2];
      [|intros; apply appends_loader_body].
    exists (t ++ t2). split; [reflexivity|]. split; [|split].
    + rewrite Ht2, Ht. change (loader_setup_calls a') with (loader_setup_calls a).
      by rewrite <- !app_assoc.
    + intros e He. destruct (Hval e He) as [Hr _]. discriminate Hr.
    + intros m Hm. destruct (Hld m Hm) as (t' & -> & Hraise).
      exists (t' ++ t2). split; [reflexivity|].
      intros e He. destruct (Hraise e He) as [Hr _]. discriminate Hr.
  - apply (loader_setup_inv X a' w n n' _ _ Hseed Htrain Heast Hbatch Hloader)
      in Hs as (t & Ht & Hval & Hld).
    exists t. split; [reflexivity|]. split; [exact Ht|]. split.
    + intros e' He. destruct (Hval e' He) as [Hr Hnil]. injection Hr as ->.
      split; [reflexivity|exact Hnil].
    + intros m Hm. destruct (Hld m Hm) as (t' & -> & Hraise).
      exists t'. split; [reflexivity|].
      intros e' He. destruct (Hraise e' He) as [Hr Hnil]. injection Hr as ->.
      split; [reflexivity|exact Hnil].
Qed.

Lemma loader_validation_dataset_unconditional_witness :
  let a := loader_args 3 1 true 1 20 in
  (exists w',
     Loader.do_training no_val_split (Loader.set_use_val false a) fresh_world
       = (Raise (CollaboratorError "ufo/val.json"), w') /\
     trace w' = loader_setup_calls a) /\
  (exists w',
     Loader.do_training no_val_loader (Loader.set_use_val false a) fresh_world
       = (Raise (CollaboratorError "DataLoader"), w') /\
     trace w' = loader_setup_calls a ++ [Call (CallDataLoader Val)]).
Proof.
  intros a. split.
  - destruct (loader_validation_dataset_unconditional no_val_split a false
                fresh_world 24 24 eq_refl eq_refl eq_refl
                ltac:(discriminate) eq_refl)
      as (r & w' & t & Hrun & Ht & Hval & _).
    destruct (Hval _ eq_refl) as [-> ->].
    exists w'. split; [exact Hrun|].
    rewrite Ht. simpl. reflexivity.
  - destruct (loader_validation_dataset_unconditional no_val_loader a false
                fresh_world 24 24 eq_refl eq_refl eq_refl
                ltac:(discriminate) eq_refl)
      as (r & w' & t & Hrun & Ht & _ & Hld).
    destruct (Hld 24 eq_refl) as (t' & -> & Hraise).
    destruct (Hraise _ eq_refl) as [-> ->].
    exists w'. split; [exact Hrun|].
    rewrite Ht. simpl. reflexivity.
Defined.

(** * What the drivers leave alone *)

(** ** Entries of the file system that are kept *)

Lemma keeps_pure {A} k x (a : A) : keeps_entry k x (pure a).
Proof. intros w r w' H. by inversion H. Qed.

Lemma keeps_raise {A} k x e : keeps_entry k x (@raise A e).
Proof. intros w r w' H. by inversion H. Qed.

Lemma keeps_lift {A} k x (y : result A) : keeps_entry k x (lift y).
Proof. intros w r w' H. by inversion H. Qed.

Lemma keeps_emit k x e : keeps_entry k x (emit e).
Proof. intros w r w' H. by inversion H. Qed.

Lemma keeps_get_fs k x : keeps_entry k x get_fs.
Proof. intros w r w' H. by inversion H. Qed.

Lemma keeps_bind {A B} k x (m : M A) (f : A -> M B) :
  keeps_entry k x m -> (forall a, keeps_entry k x (f a)) ->
  keeps_entry k x (bind m f).
Proof.
  intros Hm Hf w r w' H Hk.
  apply bind_inv in H as [(a & w1 & H1 & H2)|(e & H1 & _)].
  - eapply Hf; [exact H2|]. eapply Hm; [exact H1|exact Hk].
  - eapply Hm; [exact H1|exact Hk].
Qed.

Lemma keeps_try {A} k x (m : M A) (h : exn -> M A) :
  keeps_entry k x m -> (forall e, keeps_entry k x (h e)) ->
  keeps_entry k x (try_except m h).
Proof.
  intros Hm Hh w r w' H Hk. unfold try_except in H.
  destruct (m w) as [[a|e] w1] eqn:E.
  - inversion H; subst. eapply Hm; [exact E|exact Hk].
  - eapply Hh; [exact H|]. eapply Hm; [exact E|exact Hk].
Qed.

Lemma keeps_invoke {A} k x c (y : result A) : keeps_entry k x (invoke c y).
Proof. intros w r w' H. rewrite invoke_run in H. by inversion H. Qed.

Lemma keeps_exists k x p : keeps_entry k x (Os.exists_ p).
Proof. intros w r w' H. by inversion H. Qed.

Lemma keeps_isfile k x p : keeps_entry k x (Os.isfile p).
Proof. intros w r w' H. by inversion H. Qed.

(** [os.symlink] only ever fills a path that was free. *)
Lemma keeps_symlink k x t l : keeps_entry k x (Os.symlink t l).
Proof.
  intros w r w' H Hk. rewrite symlink_run in H. cbv zeta in H.
  destruct (String.eqb l ""); [by inversion H|].
  destruct (negb _); [by inversion H|].
  destruct (fs w !! l) eqn:El; inversion H; subst; simpl; [done|].
  rewrite lookup_insert_ne; [done|]. intros ->. congruence.
Qed.

Lemma keeps_remove k x p : k <> p -> keeps_entry k x (Os.remove p).
Proof.
  intros Hne w r w' H Hk. rewrite remove_run in H. cbv zeta in H.
  destruct (fs w !! p) as [[]|]; inversion H; subst; simpl; try done;
    by rewrite lookup_delete_ne.
Qed.

Lemma mkdirs_keeps n (f f' : gmap string node) p k x :
  Os.mkdirs n f p = Ok f' -> f !! k = Some x -> f' !! k = Some x.
Proof.
  revert p f'. induction n as [|n IH]; intros p f' H Hk; simpl in H.
  - destruct (f !! p) eqn:Ep; [discriminate|].
    destruct (Os.isdir_at f (PyStr.dirname p)).
    + inversion H; subst. rewrite lookup_insert_ne; [done|]. intros ->. congruence.
    + destruct (f !! PyStr.dirname p); discriminate.
  - destruct (f !! p) eqn:Ep; [discriminate|].
    destruct (Os.isdir_at f (PyStr.dirname p)).
    + inversion H; subst. rewrite lookup_insert_ne; [done|]. intros ->. congruence.
    + destruct (f !! PyStr.dirname p); [discriminate|].
      destruct (Os.mkdirs n f (PyStr.dirname p)) as [f1|e] eqn:E; [|discriminate].
      inversion H; subst. rewrite lookup_insert_ne; [eauto|].
      intros ->. congruence.
Qed.

(** [os.makedirs] only ever fills paths that were free. *)
Lemma keeps_makedirs k x p : keeps_entry k x (Os.makedirs p).
Proof.
  intros w r w' H Hk.
  unfold Os.makedirs, bind, emit, get_fs, put_fs, lift in H. cbn [fs trace] in H.
  destruct (Os.mkdirs (String.length p) (fs w) p) as [f1|e] eqn:E;
    inversion H; subst; simpl; [|done].
  eapply mkdirs_keeps; eauto.
Qed.

Lemma follow_not_link n (f : gmap string node) p q t :
  Os.follow n f p = Some q -> f !! q <> Some (Symlink t).
Proof.
  revert p. induction n as [|n IH]; intros p H; simpl in H.
  - destruct (f !! p) as [[]|] eqn:Ep; try discriminate;
      inversion H; subst; congruence.
  - destruct (f !! p) as [[]|] eqn:Ep; eauto;
      inversion H; subst; congruence.
Qed.

(** [torch.save] writes a file where there was a file or nothing: it
    changes no entry that exists. *)
Lemma keeps_torch_save k x p : keeps_entry k x (Os.torch_save p).
Proof.
  intros w r w' H Hk.
  unfold Os.torch_save, bind, emit, get_fs, put_fs, raise in H.
  cbn [fs trace] in H.
  destruct (Os.follow Os.max_links (fs w) p) as [q|] eqn:Eq;
    [|by inversion H].
  assert (Hq : forall t, fs w !! q <> Some (Symlink t))
    by (intros t; eapply follow_not_link; eauto).
  destruct (fs w !! q) as [[]|] eqn:Efq;
    try (by inversion H);
    destruct (String.eqb q ""); try (by inversion H);
    destruct (Os.isdir_at (fs w) (PyStr.dirname q)); try (by inversion H);
    inversion H; subst; simpl;
    (destruct (decide (k = q)) as [->|Hne];
     [rewrite lookup_insert_eq; congruence | by rewrite lookup_insert_ne]).
Qed.

Create HintDb keeps.
#[local] Hint Resolve keeps_pure keeps_raise keeps_lift keeps_emit keeps_get_fs
  keeps_invoke keeps_exists keeps_isfile keeps_symlink keeps_remove
  keeps_makedirs keeps_torch_save : keeps.

Ltac keeps_step :=
  match goal with
  | |- keeps_entry _ _ (bind _ _) => apply keeps_bind; [| intros ?]
  | |- keeps_entry _ _ (try_except _ _) => apply keeps_try; [| intros ?]
  | |- keeps_entry _ _ (if ?b then _ else _) => destruct b
  | |- keeps_entry _ _ (match ?y with _ => _ end) => destruct y
  | |- keeps_entry _ _ _ => solve [auto with keeps]
  end.

Ltac keeps_tac := repeat keeps_step.

(** [symlink_force] touches [link_name] only. *)
Lemma keeps_symlink_force k x t l :
  k <> l -> keeps_entry k x (symlink_force t l).
Proof. intros Hne. unfold symlink_force. keeps_tac. Qed.

#[local] Hint Resolve keeps_symlink_force : keeps.

Lemma keeps_periodic_save k x X d e n :
  k <> PyStr.join d "latest.pth" -> keeps_entry k x (periodic_save X d e n).
Proof. intros Hne. unfold periodic_save. keeps_tac. Qed.

#[local] Hint Resolve keeps_periodic_save : keeps.

Lemma keeps_adamw_body k x X a nb e st :
  k <> PyStr.join (AdamW.model_dir a) "latest.pth" ->
  keeps_entry k x (AdamW.epoch_body X a nb e st).
Proof. intros Hne. unfold AdamW.epoch_body. keeps_tac. Qed.

Lemma keeps_loader_body k x X a nb e st :
  k <> PyStr.join (Loader.model_dir a) "latest.pth" ->
  k <> PyStr.join (Loader.model_dir a) "best_model.pth" ->
  keeps_entry k x (Loader.epoch_body X a nb e st).
Proof. intros Hne1 Hne2. unfold Loader.epoch_body. keeps_tac. Qed.

Lemma keeps_for_range {S} k x (body : Z -> S -> M (S * ctl)) n :
  (forall e s, keeps_entry k x (body e s)) ->
  forall e s, keeps_entry k x (for_range body n e s).
Proof.
  intros Hb. induction n as [|n IH]; intros e s; simpl.
  - apply keeps_pure.
  - apply keeps_bind; [apply Hb|]. intros [s' []]; simpl;
      [apply IH|apply keeps_pure].
Qed.

Lemma keeps_adamw_setup k x X a : keeps_entry k x (AdamW.setup X a).
Proof. unfold AdamW.setup. keeps_tac. Qed.

Lemma keeps_loader_setup k x X a : keeps_entry k x (Loader.setup X a).
Proof. unfold Loader.setup. keeps_tac. Qed.



(** ** Where [latest.pth] points *)

Ltac keeps_in H Hk :=
  match type of Hk with
  | fs _ !! ?k = Some ?x =>
      match type of H with
      | ?m _ = _ =>
          let K := fresh "K" in
          assert (K : keeps_entry k x m) by keeps_tac;
          apply (K _ _ _ H) in Hk; clear K
      end
  end.

Lemma join_latest_best d :
  PyStr.join d "latest.pth" <> PyStr.join d "best_model.pth".
Proof. intros H. symmetry in H. by apply join_best_latest in H. Qed.

#[local] Hint Resolve join_latest_best join_best_latest : keeps.

(** An iteration of Variant B on which no periodic checkpoint is due
    leaves [latest.pth] as it is. *)
Lemma loader_body_keeps_latest X a nb e st w st' c w' x :
  Loader.epoch_body X a nb e st w = (Ok (st', c), w') ->
  (e + 1) mod Loader.save_interval a <> 0 ->
  fs w !! PyStr.join (Loader.model_dir a) "latest.pth" = Some x ->
  fs w' !! PyStr.join (Loader.model_dir a) "latest.pth" = Some x.
Proof.
  intros H Hmod Hk. unfold Loader.epoch_body in H.
  pose proof (join_latest_best (Loader.model_dir a)) as Hne.
  inv_bind H as u1 w1 H1. keeps_in H1 Hk.
  inv_bind H as u2 w2 H2. keeps_in H2 Hk.
  inv_bind H as v w3 H3. keeps_in H3 Hk.
  inv_bind H as st1 w4 H4. keeps_in H4 Hk.
  inv_bind H as r w5 H5. apply lift_ok in H5 as [Hr ->].
  apply py_mod_ok in Hr as [_ ->].
  apply Z.eqb_neq in Hmod. rewrite Hmod in H.
  inv_bind H as u6 w6 H6. keeps_in H6 Hk.
  keeps_in H Hk. exact Hk.
Qed.

(** An iteration of Variant A that ends in [break], or on which no
    periodic checkpoint is due, leaves [latest.pth] as it is. *)
Lemma adamw_body_keeps_latest X a nb e st w st' c w' x :
  AdamW.epoch_body X a nb e st w = (Ok (st', c), w') ->
  c = Break \/ (e + 1) mod AdamW.save_interval a <> 0 ->
  fs w !! PyStr.join (AdamW.model_dir a) "latest.pth" = Some x ->
  fs w' !! PyStr.join (AdamW.model_dir a) "latest.pth" = Some x.
Proof.
  intros H Hc Hk. unfold AdamW.epoch_body in H.
  inv_bind H as losses w1 H1. keeps_in H1 Hk.
  inv_bind H as u2 w2 H2. keeps_in H2 Hk.
  inv_bind H as st1 w3 H3. keeps_in H3 Hk.
  destruct (AdamW.early_stop a <? AdamW.early_stop_cnt st1).
  - keeps_in H Hk. exact Hk.
  - inv_bind H as r w4 H4. apply lift_ok in H4 as [Hr ->].
    apply py_mod_ok in Hr as [_ ->].
    inv_bind H as u5 w5 H5. apply pure_ok in H as [Hp ->].
    destruct Hc as [->|Hmod]; [discriminate Hp|].
    apply Z.eqb_neq in Hmod. rewrite Hmod in H5.
    keeps_in H5 Hk. exact Hk.
Qed.

Lemma mod_succ (si k : Z) :
  0 < si -> 0 <= k -> (k + 1) mod si <> 0 ->
  (k + 1) mod si = k mod si + 1.
Proof.
  intros Hsi Hk Hne.
  pose proof (Z.mod_pos_bound k si Hsi) as Hb.
  pose proof (Z.div_mod k si ltac:(lia)) as Hd.
  destruct (decide (k mod si + 1 = si)) as [E|E].
  - exfalso. apply Hne. symmetry.
    apply (Z.mod_unique_pos (k + 1) si (k / si + 1) 0); lia.
  - symmetry. apply (Z.mod_unique_pos (k + 1) si (k / si)); lia.
Qed.

Lemma last_periodic_due si k :
  (Z.of_nat k + 1) mod si = 0 ->
  last_periodic si (Datatypes.S k) = Z.of_nat k.
Proof.
  intros H. unfold last_periodic.
  replace (Z.of_nat (Datatypes.S k)) with (Z.of_nat k + 1) by lia.
  rewrite H. lia.
Qed.

Lemma last_periodic_not_due si k :
  0 < si -> (Z.of_nat k + 1) mod si <> 0 ->
  last_periodic si (Datatypes.S k) = last_periodic si k /\
  (si <= Z.of_nat (Datatypes.S k) -> si <= Z.of_nat k).
Proof.
  intros Hsi H. unfold last_periodic.
  replace (Z.of_nat (Datatypes.S k)) with (Z.of_nat k + 1) by lia.
  split.
  - rewrite mod_succ by (auto; lia). lia.
  - intros Hle. destruct (decide (si = Z.of_nat k + 1)) as [->|]; [|lia].
    rewrite Z.mod_same in H by lia. contradiction.
Qed.

(** X2.  In Variant B with a positive [save_interval], at the end of
    every epoch from the first periodic save on, [model_dir/latest.pth]
    is a link to the checkpoint of the last epoch on which a periodic
    save was due. *)
Theorem loader_latest_points_at_last_periodic X a nb w0 k s c w :
  0 < Loader.save_interval a ->
  after_epochs (Loader.epoch_body X a nb) k Loader.init w0 = Some (s, c, w) ->
  Loader.save_interval a <= Z.of_nat k ->
  fs w !! PyStr.join (Loader.model_dir a) "latest.pth" =
  Some (Symlink (Loader.pth_name X a (last_periodic (Loader.save_interval a) k))).
Proof.
  intros Hsi. revert s c w. induction k as [|k IH]; intros s c w H Hle.
  - simpl in Hle. lia.
  - apply after_epochs_S in H as (s1 & w1 & Hk & Hb).
    destruct (decide ((Z.of_nat k + 1) mod Loader.save_interval a = 0))
      as [Hdue|Hnot].
    + rewrite last_periodic_due by done.
      apply loader_body_ok in Hb
        as (v & tv & tp & _ & _ & (r & Hr & Hper) & _).
      apply py_mod_ok in Hr as [_ ->]. apply Z.eqb_eq in Hdue.
      rewrite Hdue in Hper. by destruct Hper as [_ Hl].
    + destruct (last_periodic_not_due _ k Hsi Hnot) as [-> Hle'].
      eapply loader_body_keeps_latest; eauto.
Qed.

Lemma loader_latest_points_at_last_periodic_witness :
  let a := loader_args 5 2 true 1 20 in
  match after_epochs (Loader.epoch_body falling_f1 a 2) 5 Loader.init
          fresh_world with
  | Some (_, _, w) =>
      fs w !! "trained_models/latest.pth"
        = Some (Symlink "unnamed_test_4epoch_230101_000000.pth")
  | None => False
  end.
Proof.
  intros a.
  destruct (after_epochs (Loader.epoch_body falling_f1 a 2) 5 Loader.init
              fresh_world) as [[[s c] w]|] eqn:E;
    [|not_none E].
  exact (loader_latest_points_at_last_periodic falling_f1 a 2 fresh_world
           5 s c w ltac:(reflexivity) E ltac:(vm_compute; discriminate)).
Defined.

(** X3.  In Variant A with a positive [save_interval], while the loop
    goes on [model_dir/latest.pth] is a link to the checkpoint of the
    last epoch on which a periodic save was due; the iteration that
    ends in [break] leaves the link where it was. *)
Theorem adamw_latest_points_at_last_periodic X a nb w0 k s c w :
  0 < AdamW.save_interval a ->
  after_epochs (AdamW.epoch_body X a nb) k AdamW.init w0 = Some (s, c, w) ->
  let m := match c with Next => k | Break => pred k end in
  AdamW.save_interval a <= Z.of_nat m ->
  fs w !! PyStr.join (AdamW.model_dir a) "latest.pth" =
  Some (Symlink (AdamW.pth_name X (last_periodic (AdamW.save_interval a) m))).
Proof.
  intros Hsi. revert s c w.
  assert (Hnext : forall k s w,
    after_epochs (AdamW.epoch_body X a nb) k AdamW.init w0 = Some (s, Next, w) ->
    AdamW.save_interval a <= Z.of_nat k ->
    fs w !! PyStr.join (AdamW.model_dir a) "latest.pth" =
    Some (Symlink (AdamW.pth_name X (last_periodic (AdamW.save_interval a) k)))).
  { clear k. intros k. induction k as [|k IH]; intros s w H Hle.
    - simpl in Hle. lia.
    - apply after_epochs_S in H as (s1 & w1 & Hk & Hb).
      destruct (decide ((Z.of_nat k + 1) mod AdamW.save_interval a = 0))
        as [Hdue|Hnot].
      + rewrite last_periodic_due by done.
        apply adamw_body_ok in Hb as (losses & tp & _ & _ & Hc & _ & Hper).
        destruct (AdamW.early_stop a <? AdamW.early_stop_cnt s);
          [discriminate Hc|].
        destruct Hper as (r & Hr & Hper).
        apply py_mod_ok in Hr as [_ ->]. apply Z.eqb_eq in Hdue.
        rewrite Hdue in Hper. by destruct Hper as [_ Hl].
      + destruct (last_periodic_not_due _ k Hsi Hnot) as [-> Hle'].
        eapply adamw_body_keeps_latest; eauto. }
  intros s c w H m Hle. destruct c; simpl in m; subst m;
    [exact (Hnext k s w H Hle)|].
  destruct k as [|k]; [discriminate H|]. simpl in Hle |- *.
  apply after_epochs_S in H as (s1 & w1 & Hk & Hb).
  eapply adamw_body_keeps_latest; eauto.
Qed.

Lemma adamw_latest_points_at_last_periodic_witness :
  let a := adamw_args 3 1 1 in
  match after_epochs (AdamW.epoch_body rising_losses a 2) 3 AdamW.init
          fresh_world with
  | Some (_, Break, w) =>
      fs w !! "trained_models/latest.pth"
        = Some (Symlink "2epoch_230101_000000.pth")
  | _ => False
  end.
Proof.
  intros a.
  destruct (after_epochs (AdamW.epoch_body rising_losses a 2) 3 AdamW.init
              fresh_world) as [[[s c] w]|] eqn:E;
    [|not_none E].
  assert (c = Break) as -> by observed_by E (fun x => snd (fst x)).
  exact (adamw_latest_points_at_last_periodic rising_losses a 2 fresh_world
           3 s Break w ltac:(reflexivity) E ltac:(vm_compute; discriminate)).
Defined.

(** * When the loop leaves early *)

Lemma adamw_cnt_bounds X a nb w0 k s c w :
  after_epochs (AdamW.epoch_body X a nb) k AdamW.init w0 = Some (s, c, w) ->
  0 <= AdamW.early_stop_cnt s <= Z.of_nat k.
Proof.
  revert s c w. induction k as [|k IH]; intros s c w H.
  - simpl in H. inversion H; subst. simpl. lia.
  - apply after_epochs_S in H as (s1 & w1 & Hk & Hb).
    apply IH in Hk.
    apply adamw_body_ok in Hb as (losses & tp & _ & -> & _). simpl.
    destruct (adamw_improves s1 _); lia.
Qed.

Lemma loader_cnt_bounds X a nb w0 k s c w :
  after_epochs (Loader.epoch_body X a nb) k Loader.init w0 = Some (s, c, w) ->
  0 <= Loader.stop_cnt s <= Z.of_nat k.
Proof.
  revert s c w. induction k as [|k IH]; intros s c w H.
  - simpl in H. inversion H; subst. simpl. lia.
  - apply after_epochs_S in H as (s1 & w1 & Hk & Hb).
    apply IH in Hk.
    apply loader_body_ok in Hb as (v & tv & tp & _ & Hval & _).
    unfold loader_validation_post in Hval. destruct v.
    + destruct Hval as (hm & f1 & _ & _ & _ & Hupd).
      destruct (flt (Loader.best_score s1) f1);
        destruct Hupd as (_ & Hc & _); lia.
    + destruct Hval as [-> _]. lia.
Qed.

Lemma adamw_cnt_le_patience X a nb w0 k st w :
  0 <= AdamW.early_stop a ->
  after_epochs (AdamW.epoch_body X a nb) k AdamW.init w0 = Some (st, Next, w) ->
  AdamW.early_stop_cnt st <= AdamW.early_stop a.
Proof.
  intros Hp.
  apply (after_epochs_inv (AdamW.epoch_body X a nb) AdamW.init w0
           (fun s => AdamW.early_stop_cnt s <= AdamW.early_stop a)).
  - simpl. lia.
  - intros e s w1 s' w' _ Hb.
    apply adamw_body_ok in Hb as (losses & tp & _ & _ & Hc & _).
    destruct (AdamW.early_stop a <? AdamW.early_stop_cnt s') eqn:E;
      [discriminate|].
    apply Z.ltb_ge in E. lia.
Qed.

(** X4.  Neither variant leaves the loop early before the number of
    epochs run exceeds the patience: an iteration [k] with
    [k < early_stop] never ends in [break].  In particular a run with
    [max_epoch <= early_stop] (the defaults of Variant A are 200 and
    201) always goes through all its epochs. *)
Theorem no_early_stop_within_patience :
  (forall X a nb w0 k st w st' c w',
      epoch_ran (AdamW.epoch_body X a nb) AdamW.init w0 k st w st' c w' ->
      Z.of_nat k < AdamW.early_stop a -> c = Next) /\
  (forall X a nb w0 k st w st' c w',
      epoch_ran (Loader.epoch_body X a nb) Loader.init w0 k st w st' c w' ->
      Z.of_nat k < Loader.early_stop a -> c = Next).
Proof.
  split; intros X a nb w0 k st w st' c w' Hran Hk.
  - pose proof (epoch_ran_after _ _ _ _ _ _ _ _ _ Hran) as Ha.
    apply adamw_cnt_bounds in Ha. destruct Hran as [_ Hb].
    apply adamw_body_ok in Hb as (losses & tp & _ & _ & -> & _).
    destruct (AdamW.early_stop a <? AdamW.early_stop_cnt st') eqn:E; [|done].
    apply Z.ltb_lt in E. lia.
  - pose proof (epoch_ran_after _ _ _ _ _ _ _ _ _ Hran) as Ha.
    apply loader_cnt_bounds in Ha. destruct Hran as [_ Hb].
    apply loader_body_ok in Hb as (v & tv & tp & _ & _ & _ & -> & _).
    destruct (Loader.early_stop a <? Loader.stop_cnt st') eqn:E; [|done].
    apply Z.ltb_lt in E. lia.
Qed.

Lemma no_early_stop_within_patience_witness :
  let body := AdamW.epoch_body rising_losses (adamw_args 3 1 3) 2 in
  match after_epochs body 3 AdamW.init fresh_world with
  | Some (_, c, _) => c = Next
  | None => False
  end.
Proof.
  intros body.
  destruct (after_epochs body 3 AdamW.init fresh_world) as [[[s c] w]|] eqn:E;
    [|not_none E].
  destruct (after_epochs_S _ _ _ _ _ _ _ E) as (s1 & w1 & Hran).
  destruct no_early_stop_within_patience as [HA _].
  apply (HA _ _ _ _ _ _ _ _ _ _ Hran). simpl. lia.
Defined.

(** X5.  With a patience that is not negative, the loop leaves exactly
    when the stall counter first passes the patience: the iteration
    that ends in [break] found the counter at [early_stop] and left it
    at [early_stop + 1], so it was a non-improving epoch (in Variant B,
    one that ends with an F1 score in [ret] that does not exceed
    [best_score]). *)
Theorem early_stop_at_patience_plus_one :
  (forall X a nb w0 k st w st' w',
      0 <= AdamW.early_stop a ->
      epoch_ran (AdamW.epoch_body X a nb) AdamW.init w0 k st w st' Break w' ->
      AdamW.early_stop_cnt st = AdamW.early_stop a /\
      AdamW.early_stop_cnt st' = AdamW.early_stop a + 1 /\
      adamw_improves st (AdamW.epoch_loss st') = false) /\
  (forall X a nb w0 k st w st' w',
      0 <= Loader.early_stop a ->
      epoch_ran (Loader.epoch_body X a nb) Loader.init w0 k st w st' Break w' ->
      Loader.stop_cnt st = Loader.early_stop a /\
      Loader.stop_cnt st' = Loader.early_stop a + 1 /\
      exists f1_score,
        Loader.ret st' = Some f1_score /\
        flt (Loader.best_score st) f1_score = false).
Proof.
  split; intros X a nb w0 k st w st' w' Hp [Hk Hb].
  - pose proof (adamw_cnt_le_patience _ _ _ _ _ _ _ Hp Hk) as Hle.
    apply adamw_body_ok in Hb as (losses & tp & _ & -> & Hc & _).
    cbn [AdamW.early_stop_cnt AdamW.epoch_loss] in *.
    destruct (adamw_improves st _);
      destruct (AdamW.early_stop a <? _) eqn:E; try discriminate Hc;
      apply Z.ltb_lt in E; repeat split; lia.
  - pose proof (loader_stop_cnt_le_patience _ _ _ _ _ _ _ Hp Hk) as Hle.
    pose proof (loader_stop_cnt_nonneg _ _ _ _ _ _ _ _ Hk) as Hpos.
    apply loader_body_ok in Hb as (v & tv & tp & _ & Hval & _ & Hc & _).
    destruct (Loader.early_stop a <? Loader.stop_cnt st') eqn:E;
      [|discriminate Hc].
    apply Z.ltb_lt in E. unfold loader_validation_post in Hval. destruct v.
    + destruct Hval as (hm & f1 & _ & Hret & _ & Hupd).
      destruct (flt (Loader.best_score st) f1) eqn:Ef;
        destruct Hupd as (_ & Hcnt & _); [lia|].
      repeat split; try lia. eauto.
    + destruct Hval as [-> _]. lia.
Qed.

Lemma early_stop_at_patience_plus_one_witness :
  let body := AdamW.epoch_body rising_losses (adamw_args 3 1 1) 2 in
  match after_epochs body 2 AdamW.init fresh_world,
        after_epochs body 3 AdamW.init fresh_world with
  | Some (s2, _, _), Some (s3, Break, _) =>
      AdamW.early_stop_cnt s2 = 1 /\ AdamW.early_stop_cnt s3 = 1 + 1
  | _, _ => False
  end.
Proof.
  intros body.
  destruct (after_epochs body 2 AdamW.init fresh_world) as [[[s2 c2] w2]|] eqn:E2;
    [|not_none E2].
  destruct (after_epochs body 3 AdamW.init fresh_world) as [[[s3 c3] w3]|] eqn:E3;
    [|not_none E3].
  assert (c3 = Break) as -> by observed_by E3 (fun x => snd (fst x)).
  destruct (after_epochs_S _ _ _ _ _ _ _ E3) as (s & w & Hran).
  pose proof Hran as [Hk _]. fold body in Hk. rewrite E2 in Hk.
  injection Hk as <- _ <-.
  destruct early_stop_at_patience_plus_one as [HA _].
  assert (Hp : 0 <= AdamW.early_stop (adamw_args 3 1 1)) by (simpl; lia).
  destruct (HA _ _ _ _ _ _ _ _ _ Hp Hran) as (H1 & H2 & _).
  split; [exact H1 | exact H2].
Defined.

(** * Witnesses of the periodic-checkpoint lemmas *)

Lemma loader_periodic_checkpoint_witness :
  let a := loader_args 3 2 true 1 20 in
  let body := Loader.epoch_body falling_f1 a 2 in
  match body 1 (match after_epochs body 1 Loader.init fresh_world with
                | Some (s, _, _) => s
                | None => Loader.init
                end)
               (match after_epochs body 1 Loader.init fresh_world with
                | Some (_, _, w) => w
                | None => fresh_world
                end) with
  | (Ok _, w') =>
      fs w' !! "trained_models/latest.pth"
        = Some (Symlink "unnamed_test_2epoch_230101_000000.pth")
  | _ => False
  end.
Proof.
  intros a body.
  destruct (after_epochs body 1 Loader.init fresh_world) as [[[s c] w]|] eqn:E1;
    [|not_none E1].
  destruct (body 1 s w) as [[[s' c']|e] w'] eqn:Eb.
  - destruct (loader_periodic_checkpoint falling_f1 a 2 1 s w s' c' w' Eb)
      as (t & _ & _ & Hlatest).
    apply Hlatest. reflexivity.
  - assert (c = Next) as -> by observed_by E1 (fun x => snd (fst x)).
    pose proof (after_epochs_step body _ _ 1%nat s w E1) as E2.
    change (Z.of_nat 1) with 1 in E2. rewrite Eb in E2. not_none E2.
Defined.

Lemma adamw_periodic_checkpoint_witness :
  let a := adamw_args 3 1 201 in
  match AdamW.epoch_body rising_losses a 2 0 AdamW.init fresh_world with
  | (Ok (_, c), w') =>
      exists t,
        trace w' = trace fresh_world ++ t /\
        periodic_checkpoint_written "trained_models"
          "1epoch_230101_000000.pth" t
  | _ => False
  end.
Proof.
  intros a.
  destruct (AdamW.epoch_body rising_losses a 2 0 AdamW.init fresh_world)
    as [[[s' c']|e] w'] eqn:Eb.
  - destruct (adamw_periodic_checkpoint _ _ _ _ _ _ _ _ _ Eb)
      as (t & Ht & Hiff).
    exists t. split; [exact Ht|]. apply Hiff.
    split; [|split; [discriminate|reflexivity]].
    observed_by (outcome_ok _ _ _ Eb) (fun x => snd (fst x)).
  - apply outcome_raise in Eb. not_none Eb.
Defined.

(** * What the drivers do to the outside world *)

(** ** The events a computation adds *)

Lemma emits_nil {A} P (m : M A) :
  (forall w r w', m w = (r, w') -> trace w' = trace w) -> emits P m.
Proof.
  intros Hm w r w' H. exists []. rewrite app_nil_r. split; [eauto|constructor].
Qed.

Lemma emits_pure {A} P (a : A) : emits P (pure a).
Proof. apply emits_nil. intros w r w' H. by inversion H. Qed.

Lemma emits_raise {A} P e : emits P (@raise A e).
Proof. apply emits_nil. intros w r w' H. by inversion H. Qed.

Lemma emits_lift {A} P (x : result A) : emits P (lift x).
Proof. apply emits_nil. intros w r w' H. by inversion H. Qed.

Lemma emits_get_fs P : emits P get_fs.
Proof. apply emits_nil. intros w r w' H. by inversion H. Qed.

Lemma emits_put_fs P f : emits P (put_fs f).
Proof. apply emits_nil. intros w r w' H. by inversion H. Qed.

Lemma emits_emit (P : event -> Prop) e : P e -> emits P (emit e).
Proof.
  intros He w r w' H. inversion H; subst. exists [e]. split; [done|].
  by constructor.
Qed.

Lemma emits_bind {A B} P (m : M A) (k : A -> M B) :
  emits P m -> (forall a, emits P (k a)) -> emits P (bind m k).
Proof.
  intros Hm Hk w r w' H.
  apply bind_inv in H as [(a & w1 & H1 & H2)|(e & H1 & _)].
  - apply Hm in H1 as (t1 & E1 & F1). apply Hk in H2 as (t2 & E2 & F2).
    exists (t1 ++ t2). split; [by rewrite E2, E1, app_assoc|].
    by apply Forall_app.
  - by apply Hm in H1.
Qed.

(** The continuation only runs on what the lifted result holds. *)
Lemma emits_bind_lift {A B} P (x : result A) (k : A -> M B) :
  (forall a, x = Ok a -> emits P (k a)) -> emits P (bind (lift x) k).
Proof.
  intros Hk w r w' H. unfold bind, lift in H. destruct x as [a|e].
  - eapply Hk; eauto.
  - inversion H; subst. exists []. rewrite app_nil_r. split; [done|constructor].
Qed.

Lemma emits_try {A} P (m : M A) (h : exn -> M A) :
  emits P m -> (forall e, emits P (h e)) -> emits P (try_except m h).
Proof.
  intros Hm Hh w r w' H. unfold try_except in H.
  destruct (m w) as [[a|e] w1] eqn:E.
  - inversion H; subst. by apply Hm in E.
  - apply Hm in E as (t1 & E1 & F1). apply Hh in H as (t2 & E2 & F2).
    exists (t1 ++ t2). split; [by rewrite E2, E1, app_assoc|].
    by apply Forall_app.
Qed.

Lemma emits_invoke {A} (P : event -> Prop) c (x : result A) :
  P (Call c) -> emits P (invoke c x).
Proof.
  intros Hc. unfold invoke. apply emits_bind; [by apply emits_emit|].
  intros _. apply emits_lift.
Qed.

Ltac emits_step :=
  match goal with
  | |- emits _ (bind (lift _) _) => apply emits_bind_lift; intros ? ?
  | |- emits _ (bind _ _) => apply emits_bind; [| intros ?]
  | |- emits _ (try_except _ _) => apply emits_try; [| intros ?]
  | |- emits _ (emit _) => apply emits_emit
  | |- emits _ (invoke _ _) => apply emits_invoke
  | |- emits _ (pure _) => apply emits_pure
  | |- emits _ (raise _) => apply emits_raise
  | |- emits _ (lift _) => apply emits_lift
  | |- emits _ get_fs => apply emits_get_fs
  | |- emits _ (put_fs _) => apply emits_put_fs
  | |- emits _ (if ?b then _ else _) => destruct b eqn:?
  | |- emits _ (match ?y with _ => _ end) => destruct y eqn:?
  end.

Ltac emits_tac := repeat emits_step.

Lemma emits_exists P p : emits P (Os.exists_ p).
Proof. unfold Os.exists_. emits_tac. Qed.

Lemma emits_symlink (P : event -> Prop) t l :
  P (Sys (SysSymlink t l)) -> emits P (Os.symlink t l).
Proof. intros H. unfold Os.symlink. emits_tac. exact H. Qed.

Lemma emits_remove (P : event -> Prop) p :
  P (Sys (SysRemove p)) -> emits P (Os.remove p).
Proof. intros H. unfold Os.remove. emits_tac. exact H. Qed.

Lemma emits_makedirs (P : event -> Prop) p :
  P (Sys (SysMakedirs p)) -> emits P (Os.makedirs p).
Proof. intros H. unfold Os.makedirs. emits_tac. exact H. Qed.

Lemma emits_torch_save (P : event -> Prop) p :
  P (Sys (TorchSave p)) -> emits P (Os.torch_save p).
Proof. intros H. unfold Os.torch_save. emits_tac. exact H. Qed.

Lemma emits_symlink_force (P : event -> Prop) t l :
  P (Sys (SysSymlink t l)) -> P (Sys (SysRemove l)) ->
  emits P (symlink_force t l).
Proof.
  intros H1 H2. unfold symlink_force.
  apply emits_try; [by apply emits_symlink|].
  intros [[]| | | | | |]; try apply emits_raise.
  apply emits_bind; [by apply emits_remove|]. intros _. by apply emits_symlink.
Qed.

Lemma emits_periodic_save (P : event -> Prop) X d e n :
  P (Sys (SysMakedirs d)) -> P (Call (CallNow e)) ->
  P (Sys (TorchSave (PyStr.join d n))) ->
  P (Sys (SysSymlink n (PyStr.join d "latest.pth"))) ->
  P (Sys (SysRemove (PyStr.join d "latest.pth"))) ->
  emits P (periodic_save X d e n).
Proof.
  intros H1 H2 H3 H4 H5. unfold periodic_save.
  apply emits_bind.
  { apply emits_bind; [apply emits_exists|]. intros b.
    destruct (negb b); [by apply emits_makedirs|apply emits_pure]. }
  intros _. apply emits_bind; [by apply emits_invoke|]. intros _.
  apply emits_bind; [by apply emits_torch_save|]. intros _.
  by apply emits_symlink_force.
Qed.

Lemma emits_for_range {S} P (body : Z -> S -> M (S * ctl)) n :
  (forall e s, emits P (body e s)) ->
  forall e s, emits P (for_range body n e s).
Proof.
  intros Hb. induction n as [|n IH]; intros e s; simpl.
  - apply emits_pure.
  - apply emits_bind; [apply Hb|]. intros [s' []]; simpl;
      [apply IH|apply emits_pure].
Qed.

(** ** The file-system footprint *)

Lemma adamw_body_footprint X a nb e st :
  emits (adamw_footprint X a) (AdamW.epoch_body X a nb e st).
Proof.
  unfold AdamW.epoch_body.
  apply emits_bind; [by apply emits_invoke|]. intros losses.
  apply emits_bind; [destruct (nb =? 0); [apply emits_raise|by apply emits_emit]|].
  intros _. apply emits_bind.
  { destruct (flt _ _); [|apply emits_pure].
    apply emits_bind; [by apply emits_emit|]. intros _.
    apply emits_bind; [apply emits_torch_save; simpl; auto|]. intros _.
    apply emits_pure. }
  intros st1. destruct (_ <? _).
  { apply emits_bind; [by apply emits_emit|]. intros _. apply emits_pure. }
  apply emits_bind; [apply emits_lift|]. intros r.
  apply emits_bind; [|intros _; apply emits_pure].
  destruct (r =? 0); [|apply emits_pure].
  apply emits_periodic_save; simpl; eauto.
Qed.

Lemma loader_body_footprint X a nb e st :
  emits (loader_footprint X a) (Loader.epoch_body X a nb e st).
Proof.
  unfold Loader.epoch_body.
  apply emits_bind; [by apply emits_invoke|]. intros _.
  apply emits_bind.
  { destruct (nb =? 0); [apply emits_raise|].
    destruct (_ =? 0); by apply emits_emit. }
  intros _. apply emits_bind; [apply emits_lift|]. intros v.
  apply emits_bind.
  { destruct v; [|apply emits_pure].
    apply emits_bind; [by apply emits_invoke|]. intros hmeans.
    destruct (match last hmeans with Some h => Some h | None => Loader.ret st end)
      as [f1|]; [|apply emits_raise].
    destruct (flt _ _); [|apply emits_pure].
    apply emits_bind; [by apply emits_emit|]. intros _.
    apply emits_bind; [apply emits_torch_save; simpl; auto|]. intros _.
    apply emits_bind; [apply emits_symlink_force; simpl; auto|]. intros _.
    apply emits_pure. }
  intros st1. apply emits_bind; [apply emits_lift|]. intros r.
  apply emits_bind.
  { destruct (r =? 0); [|apply emits_pure].
    apply emits_periodic_save; simpl; eauto. }
  intros _. destruct (_ <? _); [|apply emits_pure].
  apply emits_bind; [by apply emits_emit|]. intros _. apply emits_pure.
Qed.

Lemma emits_adamw_setup (P : event -> Prop) X a :
  (forall c, P (Call c)) -> emits P (AdamW.setup X a).
Proof. intros H. unfold AdamW.setup. emits_tac; apply H. Qed.

Lemma emits_loader_setup (P : event -> Prop) X a :
  (forall c, P (Call c)) -> emits P (Loader.setup X a).
Proof. intros H. unfold Loader.setup. emits_tac; apply H. Qed.

(** X8.  The file-system footprint of a run, whether it returns or
    raises.  Variant A only ever creates [model_dir], writes
    [model_dir/best_model.pth] and the per-epoch checkpoints, and
    creates or removes the link [model_dir/latest.pth], which it only
    points at a per-epoch checkpoint by its bare name.  Variant B does
    the same with its run-named files and, besides, with the link
    [model_dir/best_model.pth], pointed at the run's best checkpoint. *)
Theorem do_training_footprint :
  (forall X a w r w',
      AdamW.do_training X a w = (r, w') ->
      exists t, trace w' = trace w ++ t /\ Forall (adamw_footprint X a) t) /\
  (forall X a w r w',
      Loader.do_training X a w = (r, w') ->
      exists t, trace w' = trace w ++ t /\ Forall (loader_footprint X a) t).
Proof.
  split; intros X a w r w' H.
  - assert (K : emits (adamw_footprint X a) (AdamW.do_training X a)).
    { unfold AdamW.do_training.
      apply emits_bind; [apply emits_adamw_setup; intros; exact I|].
      intros nb. apply emits_for_range. intros. apply adamw_body_footprint. }
    exact (K _ _ _ H).
  - assert (K : emits (loader_footprint X a) (Loader.do_training X a)).
    { unfold Loader.do_training.
      apply emits_bind; [apply emits_loader_setup; intros; exact I|].
      intros nb. apply emits_for_range. intros. apply loader_body_footprint. }
    exact (K _ _ _ H).
Qed.

Lemma do_training_footprint_witness :
  let a := loader_args 3 1 true 1 20 in
  exists t,
    trace (snd (Loader.do_training falling_f1 a fresh_world)) = [] ++ t /\
    Forall (loader_footprint falling_f1 a) t.
Proof.
  intros a. destruct do_training_footprint as [_ HB].
  destruct (Loader.do_training falling_f1 a fresh_world) as [r w'] eqn:E.
  exact (HB falling_f1 a fresh_world r w' E).
Defined.

(** ** Variant B without validation *)

Lemma loader_validates_off a e v :
  Loader.use_val a = false -> Loader.validates a e = Ok v -> v = false.
Proof.
  intros Huv H. unfold Loader.validates in H. rewrite Huv in H. by inversion H.
Qed.

Lemma loader_body_without_validation X a nb e st :
  Loader.use_val a = false ->
  emits validation_free (Loader.epoch_body X a nb e st).
Proof.
  intros Huv. unfold Loader.epoch_body.
  apply emits_bind; [by apply emits_invoke|]. intros _.
  apply emits_bind.
  { destruct (nb =? 0); [apply emits_raise|].
    destruct (_ =? 0); by apply emits_emit. }
  intros _. apply emits_bind_lift. intros v Hv.
  apply (loader_validates_off _ _ _ Huv) in Hv as ->.
  apply emits_bind; [apply emits_pure|]. intros st1.
  apply emits_bind; [apply emits_lift|]. intros r.
  apply emits_bind.
  { destruct (r =? 0); [|apply emits_pure].
    by apply emits_periodic_save. }
  intros _. destruct (_ <? _); [|apply emits_pure].
  apply emits_bind; [by apply emits_emit|]. intros _. apply emits_pure.
Qed.

(** X9.  Variant B with [use_val] false (as given, or as forced by
    [parse_args] when the validation index is missing): no validation
    pass is ever run and no best checkpoint is announced, whether the
    run returns or raises; the locals never move from their initial
    values ([stop_cnt = 0], [best_score = 0]); and with a patience that
    is not negative the loop never leaves early. *)
Theorem loader_without_validation X a :
  Loader.use_val a = false ->
  (forall nb w0 k s c w,
      after_epochs (Loader.epoch_body X a nb) k Loader.init w0 = Some (s, c, w) ->
      s = Loader.init /\ (0 <= Loader.early_stop a -> c = Next)) /\
  (forall w r w',
      Loader.do_training X a w = (r, w') ->
      exists t, trace w' = trace w ++ t /\ Forall validation_free t).
Proof.
  intros Huv. split.
  - intros nb w0 k. induction k as [|k IH]; intros s c w H.
    + simpl in H. by inversion H.
    + apply after_epochs_S in H as (s1 & w1 & Hk & Hb).
      apply IH in Hk as [-> _].
      apply loader_body_ok in Hb as (v & tv & tp & Hv & Hval & _ & Hc & _).
      apply (loader_validates_off _ _ _ Huv) in Hv as ->.
      destruct Hval as [-> _]. split; [done|]. intros Hp. subst c.
      destruct (Loader.early_stop a <? Loader.stop_cnt Loader.init) eqn:E;
        [|done].
      apply Z.ltb_lt in E. simpl in E. lia.
  - intros w r w' H.
    assert (K : emits validation_free (Loader.do_training X a)).
    { unfold Loader.do_training.
      apply emits_bind; [unfold Loader.setup; emits_tac; exact I|].
      intros nb. apply emits_for_range. intros.
      by apply loader_body_without_validation. }
    exact (K _ _ _ H).
Qed.

Lemma loader_without_validation_witness :
  let a := loader_args 3 1 false 1 0 in
  match after_epochs (Loader.epoch_body falling_f1 a 2) 3 Loader.init
          fresh_world with
  | Some (s, c, _) => s = Loader.init /\ c = Next
  | None => False
  end.
Proof.
  intros a.
  destruct (after_epochs (Loader.epoch_body falling_f1 a 2) 3 Loader.init
              fresh_world) as [[[s c] w]|] eqn:E;
    [|not_none E].
  destruct (loader_without_validation falling_f1 a eq_refl) as [Hst _].
  destruct (Hst 2 fresh_world 3%nat s c w E) as [Hs Hc].
  split; [exact Hs|]. apply Hc. simpl. lia.
Defined.

(** ** Where [best_model.pth] points (Variant B) *)

Ltac keeps_fact k H name :=
  match type of H with
  | ?m ?w = (_, ?w1) =>
      assert (name : forall x, fs w !! k = Some x -> fs w1 !! k = Some x)
        by (let x := fresh "x" in let Hx := fresh "Hx" in
            intros x Hx; keeps_in H Hx; exact Hx)
  end.

(** A completed iteration of Variant B either has just pointed
    [best_model.pth] at the run's best checkpoint, or has kept both
    [best_score] and the entry of [best_model.pth]. *)
Lemma loader_body_best_link X a nb e st w st' c w' :
  Loader.epoch_body X a nb e st w = (Ok (st', c), w') ->
  fs w' !! PyStr.join (Loader.model_dir a) "best_model.pth"
    = Some (Symlink (Loader.best_pth_name a)) \/
  (Loader.best_score st' = Loader.best_score st /\
   forall x,
     fs w !! PyStr.join (Loader.model_dir a) "best_model.pth" = Some x ->
     fs w' !! PyStr.join (Loader.model_dir a) "best_model.pth" = Some x).
Proof.
  intros H. unfold Loader.epoch_body in H.
  pose proof (join_best_latest (Loader.model_dir a)) as Hne.
  set (bl := PyStr.join (Loader.model_dir a) "best_model.pth") in *.
  inv_bind H as u1 w1 H1. keeps_fact bl H1 K1.
  inv_bind H as u2 w2 H2. keeps_fact bl H2 K2.
  inv_bind H as v w3 H3. apply lift_ok in H3 as [Hv ->].
  inv_bind H as st1 w4 H4.
  inv_bind H as r w5 H5. apply lift_ok in H5 as [Hr ->].
  inv_bind H as u6 w6 H6. keeps_fact bl H6 K6.
  assert (K7 : forall x, fs w6 !! bl = Some x -> fs w' !! bl = Some x /\ st' = st1).
  { intros x Hx. destruct (_ <? _).
    - inv_bind H as u7 w7 H7. apply emit_ok in H7 as [Ef _].
      apply pure_ok in H as [Hp ->]. inversion Hp; subst. by rewrite Ef.
    - apply pure_ok in H as [Hp ->]. by inversion Hp; subst. }
  assert (Hst : st' = st1).
  { destruct (_ <? _).
    - inv_bind H as u7 w7 H7. apply pure_ok in H as [Hp ->]. by inversion Hp.
    - apply pure_ok in H as [Hp ->]. by inversion Hp. }
  subst st'. destruct v.
  - inv_bind H4 as hmeans w7 H7. keeps_fact bl H7 K8.
    destruct (match last hmeans with Some h => Some h | None => Loader.ret st end)
      as [f1|]; [|discriminate H4].
    destruct (flt (Loader.best_score st) f1).
    + left. inv_bind H4 as u8 w8 H8. inv_bind H4 as u9 w9 H9.
      inv_bind H4 as u10 w10 H10. apply pure_ok in H4 as [_ ->].
      destruct u10. apply symlink_force_ok in H10 as [_ Hl].
      by apply K7, K6.
    + right. apply pure_ok in H4 as [-> ->]. split; [done|].
      intros x Hx. by apply K7, K6, K8, K2, K1.
  - right. apply pure_ok in H4 as [-> ->]. split; [done|].
    intros x Hx. by apply K7, K6, K2, K1.
Qed.

(** X10.  In Variant B, once some validation epoch has improved on the
    initial score ([best_score > 0]), [model_dir/best_model.pth] is, at
    the end of that epoch and of every later one, a link to the run's
    best checkpoint [<run>_best_model.pth]. *)
Theorem loader_best_link_follows_best_score X a nb w0 k s c w :
  after_epochs (Loader.epoch_body X a nb) k Loader.init w0 = Some (s, c, w) ->
  loader_has_best s ->
  fs w !! PyStr.join (Loader.model_dir a) "best_model.pth"
    = Some (Symlink (Loader.best_pth_name a)).
Proof.
  revert s c w. induction k as [|k IH]; intros s c w H Hbest.
  - simpl in H. inversion H; subst. unfold loader_has_best in Hbest.
    simpl in Hbest. by rewrite flt_irrefl in Hbest.
  - apply after_epochs_S in H as (s1 & w1 & Hk & Hb).
    apply loader_body_best_link in Hb as [Hl|[Hsame Hkeep]]; [exact Hl|].
    apply Hkeep. eapply IH; [exact Hk|].
    unfold loader_has_best in *. by rewrite <- Hsame.
Qed.

Lemma loader_best_link_follows_best_score_witness :
  let a := loader_args 3 1 true 1 20 in
  match after_epochs (Loader.epoch_body falling_f1 a 2) 3 Loader.init
          fresh_world with
  | Some (_, _, w) =>
      fs w !! "trained_models/best_model.pth"
        = Some (Symlink "unnamed_test_best_model.pth")
  | None => False
  end.
Proof.
  intros a.
  destruct (after_epochs (Loader.epoch_body falling_f1 a 2) 3 Loader.init
              fresh_world) as [[[s c] w]|] eqn:E;
    [|not_none E].
  apply (loader_best_link_follows_best_score falling_f1 a 2 fresh_world
           3 s c w E).
  unfold loader_has_best.
  observed_by E
    (fun x => flt (float_of_int 0) (Loader.best_score (fst (fst x)))).
Defined.

(** * Edge cases of the loop *)

Lemma emit_run e w : emit e w = (Ok tt, World (fs w) (trace w ++ [e])).
Proof. reflexivity. Qed.

Lemma loader_ret_unbound X a nb w0 k s c w :
  (forall e, validate X e = Ok []) ->
  after_epochs (Loader.epoch_body X a nb) k Loader.init w0 = Some (s, c, w) ->
  Loader.ret s = None.
Proof.
  intros Hempty H.
  eapply (after_epochs_rel (Loader.epoch_body X a nb) Loader.init w0
            (fun s s' => Loader.ret s = None -> Loader.ret s' = None))
    with (i := 0%nat) (j := k);
    [auto | auto | | lia | reflexivity | exact H | reflexivity].
  intros e st w1 st' c' w' Hb Hnone.
  apply loader_body_ok in Hb as (v & tv & tp & _ & Hval & _).
  unfold loader_validation_post in Hval. destruct v.
  - destruct Hval as (hm & f1 & Hhm & Hret & Hlast & _).
    rewrite Hempty in Hhm. inversion Hhm; subst hm. simpl in Hlast.
    congruence.
  - by destruct Hval as [-> _].
Qed.

(** X11.  Variant B with a validation loader that yields no batch: the
    name [ret] is never bound, so the first validation epoch that is
    reached raises [UnboundLocalError] (a [NameError]) at
    [f1_score = ret['total']['hmean']], after the training pass and
    the validation pass and before any checkpoint of that epoch. *)
Theorem loader_empty_validation_loader X a nb w0 k st w losses :
  (forall e, validate X e = Ok []) ->
  after_epochs (Loader.epoch_body X a nb) k Loader.init w0 = Some (st, Next, w) ->
  loader_validation_epoch a (Z.of_nat k) ->
  train_epoch X (Z.of_nat k) = Ok losses ->
  nb <> 0 ->
  exists w',
    Loader.epoch_body X a nb (Z.of_nat k) st w = (Raise (NameError "ret"), w') /\
    fs w' = fs w /\
    exists msg,
      trace w' = trace w ++ [Call (CallTrainEpoch (Z.of_nat k)); Print msg;
                             Call (CallValidate (Z.of_nat k))].
Proof.
  intros Hempty Hk Hv Hl Hnb.
  pose proof (loader_ret_unbound _ _ _ _ _ _ _ _ Hempty Hk) as Hret.
  unfold loader_validation_epoch in Hv. apply Z.eqb_neq in Hnb.
  unfold Loader.epoch_body.
  rewrite bind_run, invoke_run, Hl, bind_run, Hnb.
  assert (Hprint : exists msg,
    (if Loader.stop_cnt st =? 0 then emit (Print (MsgMeanLoss None))
     else emit (Print (MsgMeanLoss (Some (Loader.stop_cnt st)))))
      (World (fs w) (trace w ++ [Call (CallTrainEpoch (Z.of_nat k))]))
    = (Ok tt, World (fs w)
                ((trace w ++ [Call (CallTrainEpoch (Z.of_nat k))]) ++ [Print msg]))).
  { destruct (Loader.stop_cnt st =? 0); eexists; reflexivity. }
  destruct Hprint as (msg & ->).
  rewrite bind_run. unfold lift at 1. rewrite Hv.
  rewrite bind_run, bind_run, invoke_run, Hempty. simpl last. rewrite Hret.
  eexists. split; [reflexivity|]. split; [reflexivity|].
  exists msg. simpl. by rewrite <- !app_assoc.
Qed.

Lemma loader_empty_validation_loader_witness :
  let a := loader_args 3 1 true 1 20 in
  fst (Loader.epoch_body no_val_split a 2 0 Loader.init fresh_world)
    = Raise (NameError "ret").
Proof.
  intros a.
  destruct (loader_empty_validation_loader no_val_split a 2 fresh_world 0
              Loader.init fresh_world [float_of_int 2]
              ltac:(reflexivity) eq_refl eq_refl eq_refl ltac:(discriminate))
    as (w' & Hrun & _).
  change (Z.of_nat 0) with 0 in Hrun. by rewrite Hrun.
Defined.

(** X12.  An interval of 0 lets no epoch through, the remainder
    [(epoch + 1) % 0] being a [ZeroDivisionError]: with
    [save_interval = 0] no iteration of Variant B returns and an
    iteration of Variant A returns only through [break]; with [use_val]
    and [val_interval = 0] no iteration of Variant B returns; with
    [use_val] false the remainder by [val_interval] is not evaluated. *)
Theorem zero_interval_never_completes :
  (forall X a nb e st w st' c w',
      AdamW.save_interval a = 0 ->
      AdamW.epoch_body X a nb e st w = (Ok (st', c), w') -> c = Break) /\
  (forall X a nb e st w,
      Loader.save_interval a = 0 ->
      forall r w', Loader.epoch_body X a nb e st w = (r, w') ->
                   exists ex, r = Raise ex) /\
  (forall X a nb e st w,
      Loader.use_val a = true -> Loader.val_interval a = 0 ->
      forall r w', Loader.epoch_body X a nb e st w = (r, w') ->
                   exists ex, r = Raise ex) /\
  (forall a e, Loader.use_val a = false -> Loader.validates a e = Ok false).
Proof.
  split; [|split; [|split]].
  - intros X a nb e st w st' c w' Hz H.
    apply adamw_body_ok in H as (losses & tp & _ & _ & -> & _ & Hper).
    destruct (_ <? _); [done|].
    destruct Hper as (r & Hr & _). apply py_mod_ok in Hr as [Hne _].
    contradiction.
  - intros X a nb e st w Hz [[st' c]|ex] w' H; [|eauto].
    apply loader_body_ok in H as (v & tv & tp & _ & _ & (r & Hr & _) & _).
    apply py_mod_ok in Hr as [Hne _]. contradiction.
  - intros X a nb e st w Hu Hz [[st' c]|ex] w' H; [|eauto].
    apply loader_body_ok in H as (v & tv & tp & Hv & _).
    unfold Loader.validates, py_mod in Hv. rewrite Hu, Hz in Hv. simpl in Hv.
    discriminate Hv.
  - intros a e Hu. unfold Loader.validates. by rewrite Hu.
Qed.

Lemma zero_interval_never_completes_witness :
  Loader.epoch_body rising_losses (loader_args 3 0 false 1 20) 2 0
    Loader.init fresh_world
  = (Raise ZeroDivisionError,
     World (fs fresh_world)
       [Call (CallTrainEpoch 0); Print (MsgMeanLoss None)]).
Proof.
  destruct zero_interval_never_completes as (_ & HB & _).
  destruct (Loader.epoch_body rising_losses (loader_args 3 0 false 1 20) 2 0
              Loader.init fresh_world) as [r w'] eqn:E.
  destruct (HB rising_losses (loader_args 3 0 false 1 20) 2 0 Loader.init
              fresh_world eq_refl r w' E) as [ex ->].
  vm_compute in E. inversion E. reflexivity.
Defined.

(** X13.  Division by zero in the batch arithmetic.  With
    [batch_size = 0] the set-up of either variant raises
    [ZeroDivisionError] at [math.ceil(len(dataset) / batch_size)], once
    the training data set is built and before any loader or the model
    is.  With an empty training set ([num_batches = 0]) every epoch of
    either variant raises [ZeroDivisionError] at the mean-loss line,
    right after its training pass and before any checkpoint. *)
Theorem batch_arithmetic_zero_division :
  (forall X a w n n',
      AdamW.batch_size a = 0 ->
      seed_everything X (AdamW.seed a) = Ok tt ->
      scene_text_dataset X (AdamW.data_dir a) Train (AdamW.image_size a)
        (AdamW.input_size a) = Ok n ->
      east_dataset X n = Ok n' ->
      AdamW.do_training X a w =
      (Raise ZeroDivisionError,
       World (fs w)
         (trace w ++ [Call (CallSeed (AdamW.seed a));
                      Call (CallSceneTextDataset (AdamW.data_dir a) Train);
                      Call CallEASTDataset]))) /\
  (forall X a w n n',
      Loader.batch_size a = 0 ->
      seed_everything X (Loader.seed a) = Ok tt ->
      scene_text_dataset X (Loader.data_dir a) Train (Loader.image_size a)
        (Loader.input_size a) = Ok n ->
      east_dataset X n = Ok n' ->
      Loader.do_training X a w =
      (Raise ZeroDivisionError,
       World (fs w)
         (trace w ++ [Call (CallSeed (Loader.seed a));
                      Call (CallSceneTextDataset (Loader.data_dir a) Train);
                      Call CallEASTDataset]))) /\
  (forall X a e st w losses,
      train_epoch X e = Ok losses ->
      AdamW.epoch_body X a 0 e st w =
      (Raise ZeroDivisionError,
       World (fs w) (trace w ++ [Call (CallTrainEpoch e)]))) /\
  (forall X a e st w losses,
      train_epoch X e = Ok losses ->
      Loader.epoch_body X a 0 e st w =
      (Raise ZeroDivisionError,
       World (fs w) (trace w ++ [Call (CallTrainEpoch e)]))) /\
  (forall b, b <> 0 -> ceil_div 0 b = Ok 0).
Proof.
  split; [|split; [|split; [|split]]].
  - intros X a w n n' Hb Hs Ht He.
    unfold AdamW.do_training, AdamW.setup.
    rewrite !bind_run, !invoke_run, Hs, Ht. cbn match.
    rewrite !bind_run, !invoke_run, He. cbn match.
    unfold ceil_div, lift. rewrite Hb. cbn. by rewrite <- !app_assoc.
  - intros X a w n n' Hb Hs Ht He.
    unfold Loader.do_training, Loader.setup.
    rewrite !bind_run, !invoke_run, Hs, Ht. cbn match.
    rewrite !bind_run, !invoke_run, He. cbn match.
    unfold ceil_div, lift. rewrite Hb. cbn. by rewrite <- !app_assoc.
  - intros X a e st w losses Hl. unfold AdamW.epoch_body.
    by rewrite !bind_run, invoke_run, Hl.
  - intros X a e st w losses Hl. unfold Loader.epoch_body.
    by rewrite !bind_run, invoke_run, Hl.
  - intros b Hb. unfold ceil_div. apply Z.eqb_neq in Hb. by rewrite Hb.
Qed.

Lemma batch_arithmetic_zero_division_witness :
  fst (AdamW.epoch_body rising_losses (adamw_args 3 1 201) 0 0 AdamW.init
         fresh_world) = Raise ZeroDivisionError.
Proof.
  destruct batch_arithmetic_zero_division as (_ & _ & HA & _).
  by rewrite (HA rising_losses (adamw_args 3 1 201) 0 AdamW.init fresh_world
                [float_of_int 2] eq_refl).
Defined.

(** * More on [parse_args] *)

(** X14.  A configuration that [parse_args] returns is valid:
    [input_size] is a multiple of 32 and, in Variant B, [use_val] is
    true only if [data_dir/ufo/val.json] is a regular file; parsing
    itself touches no file, and in Variant A prints nothing. *)
Theorem parse_args_returns_valid_configuration :
  (forall E argv w args w',
      AdamW.parse_args E argv w = (Ok args, w') ->
      AdamW.input_size args mod 32 = 0 /\ w' = w) /\
  (forall E argv w args w',
      Loader.parse_args E argv w = (Ok args, w') ->
      Loader.input_size args mod 32 = 0 /\
      (Loader.use_val args = true ->
       isfile_at w (Loader.val_json args) = true) /\
      fs w' = fs w).
Proof.
  split; intros E argv w args w' H.
  - rewrite adamw_parse_args_run in H.
    destruct (AdamW.parse E argv) as [a|e]; [|discriminate H].
    destruct (AdamW.input_size a mod 32 =? 0) eqn:Em; [|discriminate H].
    inversion H; subst. split; [by apply Z.eqb_eq|done].
  - rewrite loader_parse_args_run in H.
    destruct (Loader.parse E argv) as [a|e]; [|discriminate H].
    destruct (Loader.input_size a mod 32 =? 0) eqn:Em; [|discriminate H].
    apply Z.eqb_eq in Em.
    destruct (Loader.use_val a) eqn:Eu;
      destruct (isfile_at w (Loader.val_json a)) eqn:Ef;
      simpl in H; inversion H; subst; simpl; repeat split; auto; congruence.
Qed.

Lemma parse_args_returns_valid_configuration_witness :
  match Loader.parse_args plain_env [("--input_size", "64")] fresh_world with
  | (Ok args, w') =>
      Loader.input_size args mod 32 = 0 /\ Loader.use_val args = false
  | _ => False
  end.
Proof.
  destruct parse_args_returns_valid_configuration as [_ HB].
  destruct (Loader.parse_args plain_env [("--input_size", "64")] fresh_world)
    as [[args|e] w'] eqn:E.
  - destruct (HB _ _ _ _ _ E) as (Hm & _ & _). split; [exact Hm|].
    vm_compute in E. inversion E. reflexivity.
  - vm_compute in E. discriminate E.
Defined.

Lemma str2bool_other raw :
  ~ In (PyStr.lower raw) (truthy ++ falsy) ->
  Loader.str2bool (VStr raw) = Raise (NameError "argparse").
Proof.
  intros H. unfold Loader.str2bool. fold truthy. fold falsy.
  assert (H1 : PyStr.mem (PyStr.lower raw) truthy = false)
    by (apply mem_not_In; intros Hin; apply H, in_or_app; auto).
  assert (H2 : PyStr.mem (PyStr.lower raw) falsy = false)
    by (apply mem_not_In; intros Hin; apply H, in_or_app; auto).
  by rewrite H1, H2.
Qed.

Lemma scan_accepted_prefix p pre rest extras :
  values_accepted p pre ->
  exists extras',
    Argparse.scan p (pre ++ rest) extras = Argparse.scan p rest extras'.
Proof.
  intros Hpre. revert extras.
  induction Hpre as [|[flag raw] pre Hx Hpre IH]; intros extras.
  - by exists extras.
  - simpl. destruct (Argparse.find flag p) as [chk|] eqn:Ef.
    + simpl in Hx. rewrite (Hx chk Ef). apply IH.
    + apply IH.
Qed.



(** * The entry point of Variant B *)

(** X16.  End to end, Variant B on a data directory without
    [ufo/val.json]: [parse_args] prints its two warnings and forces
    [use_val] to [False], [main] initialises the logger, and
    [do_training] all the same builds the validation data set once the
    training pipeline is there; when that constructor raises, the script
    ends with its exception before the first epoch, having written
    nothing. *)
Theorem loader_entry_degraded_run_still_needs_val
    E argv wandb_init X w args n n' e :
  Loader.parse E argv = Ok args ->
  Loader.input_size args mod 32 = 0 ->
  Loader.use_val args = true ->
  isfile_at w (Loader.val_json args) = false ->
  wandb_init (Loader.wandb_name args) = Ok tt ->
  seed_everything X (Loader.seed args) = Ok tt ->
  scene_text_dataset X (Loader.data_dir args) Train (Loader.image_size args)
    (Loader.input_size args) = Ok n ->
  east_dataset X n = Ok n' ->
  Loader.batch_size args <> 0 ->
  data_loader X Train = Ok tt ->
  scene_text_dataset X (Loader.data_dir args) Val (Loader.image_size args)
    (Loader.input_size args) = Raise e ->
  loader_entry E argv wandb_init X w =
  (Raise e,
   World (fs w)
     (trace w ++ [Print MsgValNotFound; Print MsgForceReset]
              ++ loader_setup_calls args)).
Proof.
  intros Hp Hm Hu Hf Hw Hseed Htrain Heast Hbatch Hloader Hval.
  unfold loader_entry, loader_main.
  rewrite bind_run, loader_parse_args_run, Hp.
  apply Z.eqb_eq in Hm. rewrite Hm, Hu, Hf. cbn [andb negb].
  rewrite bind_run. unfold lift at 1.
  cbn [Loader.wandb_name Loader.set_use_val]. rewrite Hw.
  unfold Loader.do_training, Loader.setup.
  cbn [Loader.seed Loader.data_dir Loader.image_size Loader.input_size
       Loader.batch_size Loader.set_use_val].
  apply Z.eqb_neq in Hbatch.
  rewrite bind_run, bind_run, invoke_run, Hseed.
  rewrite bind_run, invoke_run, Htrain.
  rewrite bind_run, invoke_run, Heast.
  rewrite bind_run. unfold lift at 1, ceil_div at 1. rewrite Hbatch.
  rewrite bind_run, invoke_run, Hloader.
  rewrite bind_run, invoke_run, Hval.
  cbn [fs trace]. unfold loader_setup_calls.
  rewrite <- !app_assoc. reflexivity.
Qed.

Lemma loader_entry_degraded_run_still_needs_val_witness :
  loader_entry plain_env [] (fun _ => Ok tt) no_val_split fresh_world =
  (Raise (CollaboratorError "ufo/val.json"),
   World (fs fresh_world)
     ([Print MsgValNotFound; Print MsgForceReset]
        ++ loader_setup_calls (loader_args 200 5 true 1 20))).
Proof.
  apply (loader_entry_degraded_run_still_needs_val plain_env [] (fun _ => Ok tt)
           no_val_split fresh_world (loader_args 200 5 true 1 20) 24 24);
    try reflexivity.
  discriminate.
Defined.
